(** * TransCode: the codec engine of [server/main.py]

    A shallow embedding of the byte-level codecs of the TransCode server
    (header framing, the decimal big-integer codec, the MIDI note codec, the
    guards of the QR codec and the hash verifier), with the properties its
    specification states about them.

    Python values are modelled as follows.
    - [int] is [Z] (unbounded).
    - [bytes] is [list byte]; [len] returns a [Z].
    - [str] is a list of Unicode code points, each a [Z]; a Python [str] holds
      code points of [0 .. 0x10FFFF], lone surrogates included.
    - A call that may raise returns a [result]: [Ok v] or [Raise e].
    - The values of a JSON document are a [value].
    An endpoint is the function from its decoded arguments to the value it
    hands to the response, or to the exception it raises; of the response,
    the argument check of its constructor and the encoding of the header
    values are modelled, the transport is not. *)

From Stdlib Require Import Strings.Byte Strings.Ascii Strings.String.
From Stdlib Require Import ZArith List Lia Bool.
Import ListNotations.
Local Open Scope Z_scope.

(** ** Exceptions and the error monad *)

Module Py.

(** The exceptions of the program. [detail] of an [HTTPException] is the
    literal text of the source; where the source appends the text of the
    exception it caught ([f"...: {str(e)}"]), only the literal prefix is kept.
    [LibraryError] stands for the exceptions of the imaging, QR, JSON and
    MIDI libraries. *)
Inductive exn : Type :=
| ValueError
| OverflowError
| UnicodeEncodeError
| UnicodeDecodeError
| AttributeError
| KeyError
| TypeError
| LibraryError (name : string)
| HTTPException (status_code : Z) (detail : string).

Inductive result (A : Type) : Type :=
| Ok (value : A)
| Raise (e : exn).
Arguments Ok {A} value.
Arguments Raise {A} e.

Definition bind {A B : Type} (m : result A) (k : A -> result B) : result B :=
  match m with
  | Ok v => k v
  | Raise e => Raise e
  end.

Notation "x <- m ;; k" := (bind m (fun x => k))
  (at level 61, m at next level, right associativity).

(** [try: body except <class> as e: handler e]: the handler runs on the
    exceptions that [catches] selects, the others propagate. *)
Definition try_except {A : Type} (body : result A) (catches : exn -> bool)
  (handler : exn -> result A) : result A :=
  match body with
  | Ok v => Ok v
  | Raise e => if catches e then handler e else Raise e
  end.

(** [UnicodeEncodeError] and [UnicodeDecodeError] are subclasses of
    [ValueError]; every exception of the program is an [Exception]. *)
Definition is_ValueError (e : exn) : bool :=
  match e with
  | ValueError | UnicodeEncodeError | UnicodeDecodeError => true
  | _ => false
  end.

Definition is_UnicodeDecodeError (e : exn) : bool :=
  match e with
  | UnicodeDecodeError => true
  | _ => false
  end.

Definition is_Exception (e : exn) : bool := true.

Definition raises {A : Type} (m : result A) : Prop :=
  match m with
  | Ok _ => False
  | Raise _ => True
  end.

(** ** bytes *)

Definition bytes : Type := list byte.

Definition len {A : Type} (l : list A) : Z := Z.of_nat (length l).

(** [l[a:b]] for indices [0 <= a], [0 <= b] (the only ones the program
    uses): a slice is cut short at the end of [l], it never raises. *)
Definition slice {A : Type} (l : list A) (a b : Z) : list A :=
  firstn (Z.to_nat (b - a)) (skipn (Z.to_nat a) l).

Definition Z_of_byte (b : byte) : Z := Z.of_N (Byte.to_N b).

(** The byte of value [z], for [0 <= z < 256]. *)
Definition byte_of_Z (z : Z) : byte :=
  match Byte.of_N (Z.to_N z) with
  | Some b => b
  | None => x00
  end.

(** [int.from_bytes(l, byteorder='big')]. *)
Definition from_bytes (l : bytes) : Z :=
  fold_left (fun acc b => acc * 256 + Z_of_byte b) l 0.

(** The [length] low-order bytes of [n], most significant first. *)
Fixpoint be_bytes (length : nat) (n : Z) : bytes :=
  match length with
  | O => []
  | S k => be_bytes k (n / 256) ++ [byte_of_Z (n mod 256)]
  end.

(** [n.to_bytes(length, byteorder='big')]: [OverflowError] on a negative [n]
    ("can't convert negative int to unsigned") and on an [n] that does not
    fit ("int too big to convert"). *)
Definition to_bytes (n : Z) (length : Z) : result bytes :=
  if n <? 0 then Raise OverflowError
  else if 256 ^ length <=? n then Raise OverflowError
  else Ok (be_bytes (Z.to_nat length) n).

(** [n.bit_length()]: the bits of [abs n], [0] for [0]. *)
Definition bit_length (n : Z) : Z :=
  if n =? 0 then 0 else Z.log2 (Z.abs n) + 1.

(** ** str *)

Definition str : Type := list Z.

(** The code points of an ASCII literal of the source. *)
Definition lit (s : string) : str :=
  map (fun a => Z.of_N (N_of_ascii a)) (list_ascii_of_string s).

Definition code_point (c : Z) : Prop := 0 <= c <= 0x10FFFF.

Definition surrogate (c : Z) : bool := (0xD800 <=? c) && (c <=? 0xDFFF).

(** The invariant of a Python [str]. *)
Definition well_formed (s : str) : Prop := Forall code_point s.

(** A [str] is a sequence of code points, not of UTF-16 units: a surrogate
    in it stands alone, whatever its neighbours. *)
Definition no_surrogate (s : str) : Prop := Forall (fun c => surrogate c = false) s.

(** *** The UTF-8 codec ([str.encode('utf-8')], [bytes.decode('utf-8')]) *)

(** The bytes of one code point; [None] for a surrogate, which the codec
    refuses ("surrogates not allowed"), and outside [0 .. 0x10FFFF]. *)
Definition utf8_encode_char (c : Z) : option bytes :=
  if c <? 0 then None
  else if c <? 0x80 then Some [byte_of_Z c]
  else if c <? 0x800 then
    Some [byte_of_Z (0xC0 + c / 64); byte_of_Z (0x80 + c mod 64)]
  else if c <? 0x10000 then
    if surrogate c then None
    else Some [byte_of_Z (0xE0 + c / 4096);
               byte_of_Z (0x80 + (c / 64) mod 64);
               byte_of_Z (0x80 + c mod 64)]
  else if c <? 0x110000 then
    Some [byte_of_Z (0xF0 + c / 262144);
          byte_of_Z (0x80 + (c / 4096) mod 64);
          byte_of_Z (0x80 + (c / 64) mod 64);
          byte_of_Z (0x80 + c mod 64)]
  else None.

Fixpoint encode_utf8 (s : str) : result bytes :=
  match s with
  | [] => Ok []
  | c :: s' =>
      match utf8_encode_char c with
      | None => Raise UnicodeEncodeError
      | Some bs => rest <- encode_utf8 s' ;; Ok (bs ++ rest)
      end
  end.

(** The number of bytes [encode_utf8] gives a code point. *)
Definition utf8_width (c : Z) : Z :=
  if c <? 0x80 then 1 else if c <? 0x800 then 2 else if c <? 0x10000 then 3 else 4.

Definition utf8_size (s : str) : Z := fold_right (fun c n => utf8_width c + n) 0 s.

Definition continuation (z : Z) : bool := (0x80 <=? z) && (z <=? 0xBF).

(** The strict decoder: it refuses a stray or missing continuation byte, an
    overlong form, a surrogate and a value above [0x10FFFF]. *)
Fixpoint decode_utf8 (l : bytes) : result str :=
  match l with
  | [] => Ok []
  | b0 :: t0 =>
      let z0 := Z_of_byte b0 in
      if z0 <? 0x80 then
        rest <- decode_utf8 t0 ;; Ok (z0 :: rest)
      else if z0 <? 0xC2 then Raise UnicodeDecodeError
      else if z0 <? 0xE0 then
        match t0 with
        | b1 :: t1 =>
            let z1 := Z_of_byte b1 in
            if continuation z1 then
              rest <- decode_utf8 t1 ;;
              Ok ((z0 - 0xC0) * 64 + (z1 - 0x80) :: rest)
            else Raise UnicodeDecodeError
        | _ => Raise UnicodeDecodeError
        end
      else if z0 <? 0xF0 then
        match t0 with
        | b1 :: b2 :: t2 =>
            let z1 := Z_of_byte b1 in
            let z2 := Z_of_byte b2 in
            let c := (z0 - 0xE0) * 4096 + (z1 - 0x80) * 64 + (z2 - 0x80) in
            if continuation z1 && continuation z2
               && (0x800 <=? c) && negb (surrogate c) then
              rest <- decode_utf8 t2 ;; Ok (c :: rest)
            else Raise UnicodeDecodeError
        | _ => Raise UnicodeDecodeError
        end
      else if z0 <? 0xF5 then
        match t0 with
        | b1 :: b2 :: b3 :: t3 =>
            let z1 := Z_of_byte b1 in
            let z2 := Z_of_byte b2 in
            let z3 := Z_of_byte b3 in
            let c := (z0 - 0xF0) * 262144 + (z1 - 0x80) * 4096
                     + (z2 - 0x80) * 64 + (z3 - 0x80) in
            if continuation z1 && continuation z2 && continuation z3
               && (0x10000 <=? c) && (c <? 0x110000) then
              rest <- decode_utf8 t3 ;; Ok (c :: rest)
            else Raise UnicodeDecodeError
        | _ => Raise UnicodeDecodeError
        end
      else Raise UnicodeDecodeError
  end.

(** *** [int(s)] and [str(n)]

    [sys.set_int_max_str_digits(limit)] bounds the digits of a conversion
    between [int] and [str]; a [limit] of [0] lifts the bound. *)

Definition over_limit (limit digits : Z) : bool := (0 <? limit) && (limit <? digits).

Definition digit_char (d : Z) : Z := 48 + d.

Definition digit (c : Z) : Prop := 48 <= c <= 57.

(** The decimal digits of [n >= 0] in front of [acc], most significant
    first; [fuel] bounds the number of digits. *)
Fixpoint dec_digits (fuel : nat) (n : Z) (acc : str) : str :=
  match fuel with
  | O => acc
  | S k =>
      let acc' := digit_char (n mod 10) :: acc in
      if n <? 10 then acc' else dec_digits k (n / 10) acc'
  end.

(** A number of bits has at least as many bits as it has decimal digits. *)
Definition decimal (n : Z) : str := dec_digits (S (Z.to_nat (Z.log2 n))) n [].

(** [str(n)] under the limit [limit]: [ValueError] when [n] has more digits
    than a positive [limit] allows. *)
Definition str_of_int (limit : Z) (n : Z) : result str :=
  let digits := decimal (Z.abs n) in
  if over_limit limit (len digits) then Raise ValueError
  else Ok (if n <? 0 then 45 :: digits else digits).

(** ASCII white space, as [int] skips it on both ends of its argument. *)
Definition is_space (c : Z) : bool := ((9 <=? c) && (c <=? 13)) || (c =? 32).

Fixpoint lstrip (s : str) : str :=
  match s with
  | [] => []
  | c :: s' => if is_space c then lstrip s' else s
  end.

Definition strip (s : str) : str := rev (lstrip (rev (lstrip s))).

(** The value of a digit or letter, and of a digit of [base]. *)
Definition digit_value (c : Z) : option Z :=
  if (48 <=? c) && (c <=? 57) then Some (c - 48)
  else if (97 <=? c) && (c <=? 122) then Some (c - 97 + 10)
  else if (65 <=? c) && (c <=? 90) then Some (c - 65 + 10)
  else None.

Definition digit_in (base c : Z) : option Z :=
  match digit_value c with
  | Some d => if d <? base then Some d else None
  | None => None
  end.

(** Digits of [base] with single underscores between them; [after_digit]
    tells whether the previous character was a digit. *)
Fixpoint parse_digits (base acc : Z) (after_digit : bool) (s : str) : option Z :=
  match s with
  | [] => if after_digit then Some acc else None
  | c :: s' =>
      if c =? 95 then
        if after_digit then parse_digits base acc false s' else None
      else
        match digit_in base c with
        | Some d => parse_digits base (acc * base + d) true s'
        | None => None
        end
  end.

Fixpoint count_digits (s : str) : Z :=
  match s with
  | [] => 0
  | c :: s' => (if c =? 95 then 0 else 1) + count_digits s'
  end.

(** The [0x] or [0X] that may start a base-16 literal, with the underscore
    that may follow it. *)
Definition skip_hex_prefix (s : str) : str :=
  match s with
  | 48 :: 120 :: 95 :: s' | 48 :: 88 :: 95 :: s' => s'
  | 48 :: 120 :: s' | 48 :: 88 :: s' => s'
  | _ => s
  end.

(** The code points of the digit zero of each run of ten decimal digits
    (the characters with a decimal value) of Unicode 14.0, the tables of
    Python 3.11, after the ASCII digits. *)
Definition unicode_zeros : list Z :=
  [0x660; 0x6F0; 0x7C0; 0x966; 0x9E6; 0xA66; 0xAE6; 0xB66; 0xBE6; 0xC66; 0xCE6;
   0xD66; 0xDE6; 0xE50; 0xED0; 0xF20; 0x1040; 0x1090; 0x17E0; 0x1810; 0x1946;
   0x19D0; 0x1A80; 0x1A90; 0x1B50; 0x1BB0; 0x1C40; 0x1C50; 0xA620; 0xA8D0;
   0xA900; 0xA9D0; 0xA9F0; 0xAA50; 0xABF0; 0xFF10; 0x104A0; 0x10D30; 0x11066;
   0x110F0; 0x11136; 0x111D0; 0x112F0; 0x11450; 0x114D0; 0x11650; 0x116C0;
   0x11730; 0x118E0; 0x11950; 0x11C50; 0x11D50; 0x11DA0; 0x16A60; 0x16AC0;
   0x16B50; 0x1D7CE; 0x1D7D8; 0x1D7E2; 0x1D7EC; 0x1D7F6; 0x1E140; 0x1E2F0;
   0x1E950; 0x1FBF0].

(** The decimal value of a character outside ASCII, if it has one. *)
Definition unicode_decimal (c : Z) : option Z :=
  match find (fun zero => (zero <=? c) && (c <? zero + 10)) unicode_zeros with
  | Some zero => Some (c - zero)
  | None => None
  end.

(** The white space of Unicode 14.0 outside ASCII. *)
Definition unicode_spaces : list Z :=
  [0x85; 0xA0; 0x1680; 0x2000; 0x2001; 0x2002; 0x2003; 0x2004; 0x2005; 0x2006;
   0x2007; 0x2008; 0x2009; 0x200A; 0x2028; 0x2029; 0x202F; 0x205F; 0x3000].

Definition unicode_isspace (c : Z) : bool := existsb (Z.eqb c) unicode_spaces.

(** What [int] makes of a character before it reads the text: a character
    below 127 is kept, white space becomes a space, a decimal digit of any
    script its ASCII digit, and any other character a question mark, which
    no numeral holds. *)
Definition to_ascii (c : Z) : Z :=
  if c <? 127 then c
  else if unicode_isspace c then 32
  else match unicode_decimal c with
       | Some d => digit_char d
       | None => 63
       end.

(** [int(s, base)] for [base] 10 and 16: optional white space around, an
    optional sign, then the digits. [ValueError] otherwise, and when the
    digits outnumber a positive [limit]. *)
Definition int_of_str (limit base : Z) (s : str) : result Z :=
  let body := strip (map to_ascii s) in
  let negative :=
    match body with
    | c :: _ => c =? 45
    | [] => false
    end in
  let unsigned :=
    match body with
    | c :: r => if (c =? 45) || (c =? 43) then r else body
    | [] => body
    end in
  let digits := if base =? 16 then skip_hex_prefix unsigned else unsigned in
  match parse_digits base 0 false digits with
  | None => Raise ValueError
  | Some n =>
      if over_limit limit (count_digits digits) then Raise ValueError
      else Ok (if negative then - n else n)
  end.

(** [bytes.decode('latin-1')]: one code point per byte, it never raises. *)
Definition decode_latin1 (l : bytes) : str := map Z_of_byte l.

(** [str.encode('latin-1')]: [UnicodeEncodeError] on a code point above
    [0xFF]. *)
Definition latin1 (s : str) : bool := forallb (fun c => (0 <=? c) && (c <? 256)) s.

Definition encode_latin1 (s : str) : result bytes :=
  if latin1 s then Ok (map byte_of_Z s) else Raise UnicodeEncodeError.

(** ** The values of a JSON document

    A [float] is written by its exact value [mantissa * 2 ^ exponent], or
    is an infinity or a NaN (which [json.loads] reads from [Infinity] and
    [NaN]). *)

Inductive float : Type :=
| Finite (mantissa exponent : Z)
| Infinity (negative : bool)
| NaN.

(** What [json.loads] returns: [None], a [bool], an [int], a [float], a
    [str], a [list] or a [dict] with [str] keys. *)
#[warnings="-register-all"] Inductive value : Type :=
| VNone
| VBool (b : bool)
| VInt (n : Z)
| VFloat (f : float)
| VStr (s : str)
| VList (items : list value)
| VDict (members : list (str * value)).

(** The truth value of an object, as [not x] tests it. *)
Definition truthy (v : value) : bool :=
  match v with
  | VNone => false
  | VBool b => b
  | VInt n => negb (n =? 0)
  | VFloat (Finite mantissa _) => negb (mantissa =? 0)
  | VFloat _ => true
  | VStr [] | VList [] | VDict [] => false
  | VStr _ | VList _ | VDict _ => true
  end.

(** [int(f)] for a [float]: the value cut towards zero; [OverflowError] on
    an infinity and [ValueError] on a NaN. *)
Definition int_of_float (f : float) : result Z :=
  match f with
  | Finite mantissa exponent =>
      Ok (if 0 <=? exponent then mantissa * 2 ^ exponent
          else Z.quot mantissa (2 ^ (- exponent)))
  | Infinity _ => Raise OverflowError
  | NaN => Raise ValueError
  end.

(** [int(x)]: a [str] is read in base 10, a [bool] counts as 0 or 1, and
    [None], a [list] and a [dict] are refused with [TypeError]. *)
Definition int_of (limit : Z) (x : value) : result Z :=
  match x with
  | VStr s => int_of_str limit 10 s
  | VInt n => Ok n
  | VBool b => Ok (if b then 1 else 0)
  | VFloat f => int_of_float f
  | VNone | VList _ | VDict _ => Raise TypeError
  end.

End Py.

(** * The program *)

Module Main.
Import Py.

(** Line 16, [sys.set_int_max_str_digits(0)]: conversions between [int] and
    [str] are unbounded. *)
Definition int_max_str_digits : Z := 0.

Definition is_empty {A : Type} (l : list A) : bool :=
  match l with
  | [] => true
  | _ :: _ => false
  end.

Fixpoint str_eqb (s t : str) : bool :=
  match s, t with
  | [], [] => true
  | c :: s', d :: t' => (c =? d) && str_eqb s' t'
  | _, _ => false
  end.

(** [file.filename or default]: the default replaces a missing or empty name. *)
Definition or_default (filename : option str) (default : str) : str :=
  match filename with
  | Some (c :: s) => c :: s
  | _ => default
  end.

(** ** Header framing and the big-integer codec *)

(** Lines 61-72 of [bytes_to_prime_string]: the framed buffer
    [4 bytes: filename length][filename bytes][4 bytes: data length][data]. *)
Definition frame (data : bytes) (filename : str) : result bytes :=
  filename_bytes <- encode_utf8 filename ;;
  let filename_len := len filename_bytes in
  let data_len := len data in
  filename_len_field <- to_bytes filename_len 4 ;;
  data_len_field <- to_bytes data_len 4 ;;
  let header := filename_len_field ++ filename_bytes ++ data_len_field in
  let full_data := header ++ data in
  Ok full_data.

(** Lines 56-80. The handler of line 78 calls [big_int.hex()], which an
    [int] does not have: it raises [AttributeError]. *)
Definition bytes_to_prime_string (data : bytes) (filename : str) : result str :=
  full_data <- frame data filename ;;
  let big_int := from_bytes full_data in
  try_except (str_of_int int_max_str_digits big_int)
    is_ValueError
    (fun _ => Raise AttributeError).

(** Lines 92-122 of [prime_string_to_bytes], the strict reading of the
    header: [Ok (Some r)] is the [return r] of line 118, [Ok None] is the end
    of the block reached without returning. *)
Definition strict_unframe (full_data : bytes) : result (option (bytes * str)) :=
  try_except
    (if 8 <=? len full_data then
       let filename_len := from_bytes (slice full_data 0 4) in
       if (0 <=? filename_len) && (filename_len <=? 500) then
         let filename_start := 4 in
         let filename_end := filename_start + filename_len in
         if filename_end <=? len full_data then
           try_except
             (filename <- decode_utf8 (slice full_data filename_start filename_end) ;;
              let data_len_start := filename_end in
              let data_len_end := data_len_start + 4 in
              if data_len_end <=? len full_data then
                let data_len := from_bytes (slice full_data data_len_start data_len_end) in
                if data_len <=? len full_data - data_len_end then
                  let data_start := data_len_end in
                  let data_end := data_start + data_len in
                  let data_bytes := slice full_data data_start data_end in
                  Ok (Some (data_bytes, filename))
                else Ok None
              else Ok None)
             is_UnicodeDecodeError
             (fun _ => Ok None)
         else Ok None
       else Ok None
     else Ok None)
    (fun e => is_ValueError e || is_UnicodeDecodeError e)
    (fun _ => Ok None).

(** Lines 92-125: the strict reading, else the whole buffer under the name
    ["decoded_file"]. *)
Definition unframe (full_data : bytes) : result (bytes * str) :=
  found <- strict_unframe full_data ;;
  match found with
  | Some r => Ok r
  | None => Ok (full_data, lit "decoded_file")
  end.

(** Lines 87-88: the shortest big-endian form of [big_int]. *)
Definition minimal_bytes (big_int : Z) : result bytes :=
  let byte_length := (bit_length big_int + 7) / 8 in
  to_bytes big_int byte_length.

(** Lines 82-127. The argument is annotated as a [str]; the function is also
    reached with the other values of a JSON body, which [int] converts or
    refuses. *)
Definition prime_string_to_bytes (prime_str : value) : result (bytes * str) :=
  try_except
    (big_int <- int_of int_max_str_digits prime_str ;;
     full_data <- minimal_bytes big_int ;;
     unframe full_data)
    is_Exception
    (fun _ => Raise (HTTPException 400 "Invalid prime string: ")).

(** ** The MIDI note codec *)

(** The messages of [mido] that the program builds or reads; [Other] stands
    for the remaining ones (meta messages and the like). *)
Inductive Message : Type :=
| NoteOn (channel note velocity time : Z)
| NoteOff (channel note velocity time : Z)
| ProgramChange (channel program time : Z)
| Other (time : Z).

Definition MidiTrack : Type := list Message.

(** [mid.tracks]. *)
Definition MidiFile : Type := list MidiTrack.

Definition msg_time (msg : Message) : Z :=
  match msg with
  | NoteOn _ _ _ t | NoteOff _ _ _ t | ProgramChange _ _ t | Other t => t
  end.

(** Lines 194-200, the body of the loop of [encode_to_midi] at index [i]. *)
Definition encode_byte (i : Z) (byte : byte) (track : MidiTrack) : MidiTrack :=
  let byte := Z_of_byte byte in
  let note := 48 + byte mod 64 in
  let velocity := Z.max 40 (Z.min 127 (40 + Z.shiftr byte 2)) in
  let time := if 0 <? i then 120 else 0 in
  (track ++ [NoteOn 0 note velocity time]) ++ [NoteOff 0 note velocity 120].

(** Lines 193-200: [for i, byte in enumerate(content)], from index [i]. *)
Fixpoint encode_loop (i : Z) (content : bytes) (track : MidiTrack) : MidiTrack :=
  match content with
  | [] => track
  | byte :: rest => encode_loop (i + 1) rest (encode_byte i byte track)
  end.

(** The state of the loop of [add_musical_tracks]. *)
Record Accompaniment : Type := {
  bass_track : MidiTrack;
  chord_track : MidiTrack;
  drum_track : MidiTrack;
  time : Z
}.

(** Lines 148-172, the body of the loop at index [i]. *)
Definition accompany (i : Z) (msg : Message) (st : Accompaniment) : Accompaniment :=
  let time := time st in
  match msg with
  | NoteOn _ note velocity _ =>
      let bass_note := note mod 12 + 36 in
      let bass :=
        bass_track st ++ [NoteOn 1 bass_note (velocity / 2) time;
                          NoteOff 1 bass_note (velocity / 2) 480] in
      let chord_notes := [note; (note + 4) mod 128; (note + 7) mod 128] in
      let chord :=
        chord_track st
        ++ map (fun chord_note => NoteOn 2 chord_note (velocity / 3) 0) chord_notes
        ++ map (fun chord_note => NoteOff 2 chord_note (velocity / 3) 240) chord_notes in
      let drum := drum_track st in
      let drum :=
        if i mod 4 =? 0
        then drum ++ [NoteOn 9 36 100 time; NoteOff 9 36 100 100] else drum in
      let drum :=
        if i mod 4 =? 2
        then drum ++ [NoteOn 9 38 80 time; NoteOff 9 38 80 100] else drum in
      {| bass_track := bass; chord_track := chord; drum_track := drum;
         time := msg_time msg |}
  | _ =>
      {| bass_track := bass_track st; chord_track := chord_track st;
         drum_track := drum_track st; time := msg_time msg |}
  end.

Fixpoint accompany_loop (i : Z) (data_track : MidiTrack) (st : Accompaniment)
  : Accompaniment :=
  match data_track with
  | [] => st
  | msg :: rest => accompany_loop (i + 1) rest (accompany i msg st)
  end.

(** Lines 129-172: the three tracks appended to [mid.tracks]. *)
Definition add_musical_tracks (mid : MidiFile) (data_track : MidiTrack) : MidiFile :=
  let st :=
    accompany_loop 0 data_track
      {| bass_track := [ProgramChange 1 32 0];
         chord_track := [ProgramChange 2 0 0];
         drum_track := [];
         time := 0 |} in
  mid ++ [bass_track st; chord_track st; drum_track st].

(** Lines 244-247, the body of the loop of [decode_from_midi]. *)
Definition decode_message (msg : Message) (original_bytes : bytes) : bytes :=
  match msg with
  | NoteOn _ note velocity _ =>
      let note_offset := note - 48 in
      let velocity_part := Z.shiftl (velocity - 40) 2 in
      let byte_value := note_offset mod 64 + Z.min 192 (Z.max 0 velocity_part) in
      original_bytes ++ [byte_of_Z (byte_value mod 256)]
  | _ => original_bytes
  end.

(** Lines 241-247: [for msg in track]. *)
Fixpoint decode_loop (track : MidiTrack) (original_bytes : bytes) : bytes :=
  match track with
  | [] => original_bytes
  | msg :: rest => decode_loop rest (decode_message msg original_bytes)
  end.

(** ** The verifier *)

Record VerificationResponse : Type := {
  verified : bool;
  match_ : bool
}.

(** The lower case of an ASCII character. *)
Definition lower_char (c : Z) : Z := if (65 <=? c) && (c <=? 90) then c + 32 else c.

Definition is_ascii (s : str) : bool := forallb (fun c => (0 <=? c) && (c <? 128)) s.

Section Lower.

(** The lower case that the Unicode tables give a text that is not ASCII
    (a text may change its length: [U+0130] becomes two characters). *)
Variable unicode_lower : str -> str.

(** [str.lower()]: on ASCII text the letters [A-Z] become [a-z]. *)
Definition lower (s : str) : str :=
  if is_ascii s then map lower_char s else unicode_lower s.

(** Lines 415-421. *)
Definition verify_hashes (original_hash decoded_hash : str) : VerificationResponse :=
  let match_ := str_eqb (lower original_hash) (lower decoded_hash) in
  let verified := (len original_hash =? 64) && (len decoded_hash =? 64) in
  {| verified := verified; match_ := match_ |}.

End Lower.

(** ** The endpoints

    The libraries the endpoints call are parameters: the SHA-256 digest of
    [hashlib], the base64 codec, the MIDI file reader of [mido], the QR
    renderer ([json.dumps], [qrcode], the PNG writer), the image reader and
    scanner ([PIL], [pyzbar]) and [json.loads]. *)

Record MidiResponse : Type := {
  midi : MidiFile;
  midi_original_hash : str
}.

Record BytesResponse : Type := {
  body : bytes;
  decoded_hash : str
}.

Record PrimeResponse : Type := {
  prime_string : str;
  original_hash : str;
  original_size : Z;
  original_filename : str;
  digit_count : Z
}.

Record FileResponse : Type := {
  file_body : bytes;
  file_decoded_hash : str;
  file_decoded_filename : str
}.

Record QRData : Type := {
  qr_filename : str;
  qr_hash : str;
  qr_data : str
}.

Record ImageResponse : Type := {
  png : bytes;
  png_original_hash : str
}.

Record QRFileResponse : Type := {
  qr_body : bytes;
  qr_decoded_hash : str;
  qr_original_hash : value;
  qr_decoded_filename : value
}.

(** [str.split(sep)]. *)
Fixpoint split (sep : Z) (s : str) : list str :=
  match s with
  | [] => [[]]
  | c :: s' =>
      match split sep s' with
      | piece :: pieces =>
          if c =? sep then [] :: piece :: pieces else (c :: piece) :: pieces
      | [] => [[c]]
      end
  end.

(** [d.get(key)] and [d[key]] on the members of a JSON object; of two
    members with one key, [json.loads] keeps the later. *)
Fixpoint dict_get (members : list (str * value)) (key : str) : option value :=
  match members with
  | [] => None
  | (k, v) :: rest =>
      match dict_get rest key with
      | Some later => Some later
      | None => if str_eqb k key then Some v else None
      end
  end.

(** ** Responses

    [StreamingResponse(content, media_type=..., headers=...)] of Starlette
    encodes each header value with [v.encode("latin-1")]: a value that is
    no [str] has no [encode] ([AttributeError]), and a [str] with a code
    point above [0xFF] raises [UnicodeEncodeError]. The headers that hold a
    digest of [hashlib], which is hexadecimal text, are left out, and so is
    the [Content-Disposition] header, which is text around a filename that
    the header before it has encoded. *)
Definition header_value (v : value) : result bytes :=
  match v with
  | VStr s => encode_latin1 s
  | _ => Raise AttributeError
  end.

Fixpoint init_headers (headers : list value) : result (list bytes) :=
  match headers with
  | [] => Ok []
  | v :: rest =>
      raw <- header_value v ;;
      raws <- init_headers rest ;;
      Ok (raw :: raws)
  end.

Definition StreamingResponse {A : Type} (content : A) (headers : list value) : result A :=
  raw_headers <- init_headers headers ;;
  Ok content.

(** [StreamingResponse(..., filename=...)], lines 214-219: the class takes
    no [filename] argument, and the call raises [TypeError] before any
    response is built. *)
Definition StreamingResponse_with_filename {A : Type} (content : A) : result A :=
  Raise TypeError.

(** Lines 188-204 of [encode_to_midi]: the file [mid]. [mid.tracks] holds
    the track object that the loop then fills, so after the loop its first
    track is the filled one. *)
Definition mid_of (content : bytes) (mode : str) : MidiFile :=
  let track := encode_loop 0 content [] in
  let mid := [track] in
  if str_eqb mode (lit "musical") then add_musical_tracks mid track else mid.

(** ** The pipeline *)

(** [PipelineStep], lines 44-46; [parameters] is a JSON object. *)
Record PipelineStep : Type := {
  operation : str;
  parameters : list (str * value)
}.

(** An element of [results], lines 436-440. *)
Record StepResult : Type := {
  result_operation : str;
  result_status : str;
  result_parameters : list (str * value)
}.

Record PipelineResponse : Type := {
  steps : list StepResult;
  status : str
}.

(** Lines 433-440: [for step in pipeline.steps]. *)
Fixpoint pipeline_loop (pipeline_steps : list PipelineStep) (results : list StepResult)
  : list StepResult :=
  match pipeline_steps with
  | [] => results
  | step :: rest =>
      pipeline_loop rest
        (results ++ [{| result_operation := operation step;
                        result_status := lit "completed";
                        result_parameters := parameters step |}])
  end.

(** Lines 424-444. *)
Definition process_pipeline (pipeline_steps : list PipelineStep) (content : bytes)
  (file_filename : option str) : result PipelineResponse :=
  let current_data := content in
  let current_filename := or_default file_filename (lit "unknown") in
  try_except
    (let results := pipeline_loop pipeline_steps [] in
     Ok {| steps := results; status := lit "completed" |})
    is_Exception
    (fun _ => Raise (HTTPException 400 "Pipeline processing failed: ")).

Section Libraries.

Variable sha256_hexdigest : bytes -> str.
Variable b64encode : bytes -> str.
Variable b64decode : str -> result bytes.
Variable MidiFile_read : bytes -> result MidiFile.
Variable render_qr_png : QRData -> result bytes.
Variable scan_image : bytes -> result (list bytes).
Variable json_loads : str -> result value.

(** Lines 52-54. *)
Definition calculate_hash (data : bytes) : str := sha256_hexdigest data.

(** Lines 181-219. The response is built with a [filename] argument, which
    is text around the name of the upload; whatever the name, the call
    raises, outside any [try]. *)
Definition encode_to_midi (content : bytes) (mode : str) : result MidiResponse :=
  if is_empty content then Raise (HTTPException 400 "File is empty")
  else
    let mid := mid_of content mode in
    let file_hash := calculate_hash content in
    StreamingResponse_with_filename {| midi := mid; midi_original_hash := file_hash |}.

(** Lines 222-258. The [HTTPException] of line 235 is raised inside the
    [try] and caught by its [except Exception]. The response of lines
    252-256 has the digest for its one header. *)
Definition decode_from_midi (content : bytes) : result BytesResponse :=
  if is_empty content then Raise (HTTPException 400 "File is empty")
  else
    try_except
      (mid <- MidiFile_read content ;;
       match mid with
       | [] => Raise (HTTPException 400 "MIDI file has no tracks")
       | track :: _ =>
           let original_bytes := decode_loop track [] in
           let decoded_hash := calculate_hash original_bytes in
           Ok {| body := original_bytes; decoded_hash := decoded_hash |}
       end)
      is_Exception
      (fun _ => Raise (HTTPException 400 "Could not decode MIDI: ")).

(** Lines 262-280. *)
Definition encode_to_prime (content : bytes) (file_filename : option str)
  : result PrimeResponse :=
  if is_empty content then Raise (HTTPException 400 "File is empty")
  else
    let file_hash := calculate_hash content in
    let filename := or_default file_filename (lit "unknown") in
    prime_str <- bytes_to_prime_string content filename ;;
    Ok {| prime_string := prime_str;
          original_hash := file_hash;
          original_size := len content;
          original_filename := filename;
          digit_count := len prime_str |}.

(** Lines 283-305; [prime_data] holds the members of the JSON object of the
    request. *)
Definition decode_from_prime (prime_data : list (str * value)) : result FileResponse :=
  let prime_str :=
    match dict_get prime_data (lit "prime_string") with
    | Some v => v
    | None => VNone
    end in
  if negb (truthy prime_str) then Raise (HTTPException 400 "Missing prime_string")
  else
    try_except
      (r <- prime_string_to_bytes prime_str ;;
       let '(original_bytes, filename) := r in
       let decoded_hash := calculate_hash original_bytes in
       StreamingResponse
         {| file_body := original_bytes;
            file_decoded_hash := decoded_hash;
            file_decoded_filename := filename |}
         [VStr filename])
      is_Exception
      (fun _ => Raise (HTTPException 400 "Could not decode prime: ")).

(** Lines 309-358. The response of lines 352-356 has the digest for its one
    header. *)
Definition encode_to_qr (content : bytes) (file_filename : option str)
  : result ImageResponse :=
  if is_empty content then Raise (HTTPException 400 "File is empty")
  else if 500 * 1024 <? len content then
    Raise (HTTPException 400 "File too large for QR encoding (max 500KB)")
  else
    let file_hash := calculate_hash content in
    let filename := or_default file_filename (lit "unknown") in
    let data_to_encode :=
      {| qr_filename := filename; qr_hash := file_hash; qr_data := b64encode content |} in
    try_except
      (img <- render_qr_png data_to_encode ;;
       Ok {| png := img; png_original_hash := file_hash |})
      is_Exception
      (fun _ => Raise (HTTPException 400 "Could not create QR code: ")).

(** Line 365: the text after the first comma of a data URL, else the text. *)
Definition image_text (image_data : str) : str :=
  if existsb (Z.eqb 44) image_data then nth 1 (split 44 image_data) [] else image_data.

(** Lines 361-412; [scan_image] opens the image and returns the data of the
    symbols found in it. Every exception raised inside the [try], the
    [HTTPException]s of lines 371, 383 and 389 and those of the response of
    lines 406-410 included, is caught by the [except Exception] of line
    411. *)
Definition decode_from_qr (image_data : str) : result QRFileResponse :=
  try_except
    (image_bytes <- b64decode (image_text image_data) ;;
     decoded_objects <- scan_image image_bytes ;;
     match decoded_objects with
     | [] => Raise (HTTPException 400 "No QR code found in image")
     | qr_text :: _ =>
         let qr_string :=
           match decode_utf8 qr_text with
           | Ok text => text
           | Raise _ => decode_latin1 qr_text
           end in
         data <- try_except (json_loads qr_string)
                   (fun e => match e with LibraryError "JSONDecodeError" => true | _ => false end)
                   (fun _ => Raise (HTTPException 400 "Invalid QR code data format")) ;;
         match data with
         | VDict members =>
             let filename :=
               match dict_get members (lit "filename") with
               | Some v => v
               | None => VStr (lit "decoded_file")
               end in
             let original_hash :=
               match dict_get members (lit "hash") with
               | Some v => v
               | None => VStr []
               end in
             match dict_get members (lit "data") with
             | None => Raise KeyError
             | Some (VStr text) =>
                 file_data <- b64decode text ;;
                 let decoded_hash := calculate_hash file_data in
                 StreamingResponse
                   {| qr_body := file_data;
                      qr_decoded_hash := decoded_hash;
                      qr_original_hash := original_hash;
                      qr_decoded_filename := filename |}
                   [original_hash; filename]
             | Some _ => Raise TypeError
             end
         | _ => Raise AttributeError
         end
     end)
    is_Exception
    (fun _ => Raise (HTTPException 400 "Could not decode QR: ")).

End Libraries.

End Main.

(** * The notions of the specification *)

Module Spec.
Import Py Main.

(** ** Header framing and the big-integer codec *)

(** The round trip of the big-integer codec: decode what encode wrote. *)
Definition round_trip (data : bytes) (filename : str) : result (bytes * str) :=
  prime_str <- bytes_to_prime_string data filename ;;
  prime_string_to_bytes (VStr prime_str).

(** The layout of a framed buffer: 4-byte big-endian filename length,
    filename bytes, 4-byte big-endian payload length, payload. *)
Definition framed (filename_bytes data : bytes) : bytes :=
  be_bytes 4 (len filename_bytes) ++ filename_bytes ++ be_bytes 4 (len data) ++ data.

Definition leading_byte (full_data : bytes) : byte := hd x00 full_data.

(** A buffer without its leading zero bytes. *)
Fixpoint strip_zeros (l : bytes) : bytes :=
  match l with
  | [] => []
  | b :: t => if Byte.eqb b x00 then strip_zeros t else l
  end.

(** The two length fields of a buffer read as a header. *)
Definition filename_length (buffer : bytes) : Z := from_bytes (slice buffer 0 4).

Definition payload_length (buffer : bytes) : Z :=
  from_bytes (slice buffer (4 + filename_length buffer) (8 + filename_length buffer)).

Definition filename_slice (buffer : bytes) : bytes :=
  slice buffer 4 (4 + filename_length buffer).

(** The ways strict validation fails: the filename length exceeds 500, the
    filename slice is not valid UTF-8, a length field extends past the
    buffer, the payload length exceeds the bytes left after the filename
    and the two length fields. *)
Definition validation_fails (buffer : bytes) : Prop :=
  500 < filename_length buffer
  \/ (exists e, decode_utf8 (filename_slice buffer) = Raise e)
  \/ len buffer < 8 + filename_length buffer
  \/ len buffer - (8 + filename_length buffer) < payload_length buffer.

(** The round trip as first stated: it returns the payload and the name
    exactly when the framed buffer starts with a non-zero byte. *)
Definition exact_iff_leading_nonzero (data : bytes) (filename : str) : Prop :=
  round_trip data filename = Ok (data, filename)
  <-> exists full_data,
        frame data filename = Ok full_data /\ leading_byte full_data <> x00.

(** A numeral of [base]: a text that [int(s, base)] accepts. *)
Definition numeral (base : Z) (s : str) : Prop :=
  exists n, int_of_str int_max_str_digits base s = Ok n.

(** Decoding as first stated: it fails exactly on a text that is a numeral
    neither of base 10 nor of base 16. *)
Definition fails_iff_no_numeral (s : str) : Prop :=
  raises (prime_string_to_bytes (VStr s)) <-> ~ numeral 10 s /\ ~ numeral 16 s.

(** Encoding as first stated: it is total. *)
Definition encode_total : Prop :=
  forall (data : bytes) (filename : str),
    well_formed filename -> exists s, bytes_to_prime_string data filename = Ok s.

(** ** The note codec *)

Definition clamp (x lo hi : Z) : Z := if x <? lo then lo else if hi <? x then hi else x.

Definition note_of (b : Z) : Z := 48 + b mod 64.

Definition velocity_of (b : Z) : Z := clamp (40 + Z.shiftr b 2) 40 127.

(** The fixed unit of time between two events. *)
Definition unit_time : Z := 120.

Definition delta_time (i : nat) : Z :=
  match i with
  | O => 0
  | S _ => unit_time
  end.

(** The note-on and the matched note-off of the byte at index [i]. *)
Definition events_of (i : nat) (b : byte) : list Message :=
  [NoteOn 0 (note_of (Z_of_byte b)) (velocity_of (Z_of_byte b)) (delta_time i);
   NoteOff 0 (note_of (Z_of_byte b)) (velocity_of (Z_of_byte b)) unit_time].

Fixpoint events_from (i : nat) (content : bytes) : list Message :=
  match content with
  | [] => []
  | b :: rest => events_of i b ++ events_from (S i) rest
  end.

Definition byte_of_event (note velocity : Z) : Z :=
  (((note - 48) mod 64) + clamp (Z.shiftl (velocity - 40) 2) 0 192) mod 256.

Fixpoint bytes_of_events (track : list Message) : bytes :=
  match track with
  | [] => []
  | NoteOn _ note velocity _ :: rest =>
      byte_of_Z (byte_of_event note velocity) :: bytes_of_events rest
  | _ :: rest => bytes_of_events rest
  end.

(** The range checks of [mido] on the messages it builds. *)
Definition in_range (msg : Message) : Prop :=
  match msg with
  | NoteOn ch note velocity t | NoteOff ch note velocity t =>
      0 <= ch <= 15 /\ 0 <= note <= 127 /\ 0 <= velocity <= 127 /\ 0 <= t
  | ProgramChange ch program t => 0 <= ch <= 15 /\ 0 <= program <= 127 /\ 0 <= t
  | Other t => 0 <= t
  end.

(** The round trip of one byte through the first track. *)
Definition note_round_trip (b : byte) : bytes :=
  decode_loop (encode_loop 0 [b] []) [].

(** Whether a byte comes back from the round trip. *)
Definition recovered (b : byte) : bool :=
  match note_round_trip b with
  | [b'] => Byte.eqb b' b
  | _ => false
  end.

(** ** The verifier *)





(** ** Further notions *)

(** The bytes that lines 87-88 give a number [n >= 0]. *)
Definition shortest_bytes (n : Z) : bytes :=
  be_bytes (Z.to_nat ((bit_length n + 7) / 8)) n.

(** What [decode_from_midi] makes of the byte [b] that [encode_to_midi]
    wrote: the low six bits plus the byte rounded down to a multiple of
    four, capped at 192. *)
Definition decoded_of (b : byte) : byte :=
  byte_of_Z ((Z_of_byte b mod 64 + Z.min 192 (4 * (Z_of_byte b / 4))) mod 256).

Definition is_note_on (msg : Message) : bool :=
  match msg with
  | NoteOn _ _ _ _ => true
  | _ => false
  end.

(** The state of the loop of [add_musical_tracks] holds tracks that pass
    the range checks, and a time that is not negative. *)
Definition state_in_range (st : Accompaniment) : Prop :=
  Forall in_range (bass_track st) /\ Forall in_range (chord_track st)
  /\ Forall in_range (drum_track st) /\ 0 <= time st.

(** A track that holds, for the byte at each index of a payload, the
    messages that [f] gives it. *)
Fixpoint per_byte (f : nat -> byte -> list Message) (i : nat) (content : bytes)
  : list Message :=
  match content with
  | [] => []
  | b :: rest => f i b ++ per_byte f (S i) rest
  end.

(** The accompaniment of the byte [b] at index [i] of the payload: a bass
    note in the octave from 36, at half the velocity; the major triad on
    the byte's note, at a third of the velocity; a kick at the even indices
    and a snare at the odd ones. *)
Definition bass_of (i : nat) (b : byte) : list Message :=
  let note := note_of (Z_of_byte b) in
  let velocity := velocity_of (Z_of_byte b) in
  [NoteOn 1 (note mod 12 + 36) (velocity / 2) (delta_time i);
   NoteOff 1 (note mod 12 + 36) (velocity / 2) 480].

Definition chord_of (i : nat) (b : byte) : list Message :=
  let note := note_of (Z_of_byte b) in
  let velocity := velocity_of (Z_of_byte b) in
  [NoteOn 2 note (velocity / 3) 0;
   NoteOn 2 (note + 4) (velocity / 3) 0;
   NoteOn 2 (note + 7) (velocity / 3) 0;
   NoteOff 2 note (velocity / 3) 240;
   NoteOff 2 (note + 4) (velocity / 3) 240;
   NoteOff 2 (note + 7) (velocity / 3) 240].

Definition drum_of (i : nat) (b : byte) : list Message :=
  if Nat.even i
  then [NoteOn 9 36 100 (delta_time i); NoteOff 9 36 100 100]
  else [NoteOn 9 38 80 (delta_time i); NoteOff 9 38 80 100].

(** The condition under which the note codec gives a byte back. *)
Definition comes_back (b : byte) : bool :=
  (Z_of_byte b mod 64 <? 4) || (192 <=? Z_of_byte b).

(** ** The QR record *)

(** The text that lines 377-383 read from the data of a symbol. *)
Definition text_of (qr_text : bytes) : str :=
  match decode_utf8 qr_text with
  | Ok text => text
  | Raise _ => decode_latin1 qr_text
  end.

(** The members of the record that [encode_to_qr] writes. *)
Definition record_of (d : QRData) : list (str * value) :=
  [(lit "filename", VStr (qr_filename d));
   (lit "hash", VStr (qr_hash d));
   (lit "data", VStr (qr_data d))].

Definition has_comma (s : str) : bool := existsb (Z.eqb 44) s.

(** ** The pipeline *)

(** A step, reported as completed. *)
Definition echoed (step : PipelineStep) : StepResult :=
  {| result_operation := operation step;
     result_status := lit "completed";
     result_parameters := parameters step |}.


End Spec.

(** * Facts about the Python values *)

Module PyFacts.
Import Py.

Lemma Z_of_byte_range (b : byte) : 0 <= Z_of_byte b < 256.
Proof.
  unfold Z_of_byte. pose proof (Byte.to_N_bounded b). lia.
Qed.

Lemma byte_of_Z_of_byte (b : byte) : byte_of_Z (Z_of_byte b) = b.
Proof.
  unfold byte_of_Z, Z_of_byte. rewrite N2Z.id, Byte.of_to_N. reflexivity.
Qed.

Lemma Z_of_byte_of_Z (z : Z) : 0 <= z < 256 -> Z_of_byte (byte_of_Z z) = z.
Proof.
  intros Hz. unfold byte_of_Z, Z_of_byte.
  destruct (Byte.of_N (Z.to_N z)) as [b|] eqn:E.
  - apply Byte.to_of_N in E. rewrite E. lia.
  - apply Byte.of_N_None_iff in E. lia.
Qed.

Lemma Z_of_byte_inj (a b : byte) : Z_of_byte a = Z_of_byte b -> a = b.
Proof.
  intros H. apply (f_equal byte_of_Z) in H.
  rewrite !byte_of_Z_of_byte in H. exact H.
Qed.

Lemma Z_of_byte_zero (b : byte) : Z_of_byte b = 0 <-> b = x00.
Proof.
  split; intros H.
  - apply Z_of_byte_inj. rewrite H. reflexivity.
  - subst b. reflexivity.
Qed.

Lemma len_nonneg {A : Type} (l : list A) : 0 <= len l.
Proof. unfold len. lia. Qed.

Lemma len_app {A : Type} (l1 l2 : list A) : len (l1 ++ l2) = len l1 + len l2.
Proof. unfold len. rewrite length_app. lia. Qed.

Lemma len_cons {A : Type} (x : A) (l : list A) : len (x :: l) = 1 + len l.
Proof. unfold len. simpl length. lia. Qed.

Lemma len_nil {A : Type} : len (@nil A) = 0.
Proof. reflexivity. Qed.

Lemma len_snoc {A : Type} (l : list A) (x : A) : len (l ++ [x]) = Z.succ (len l).
Proof. unfold len. rewrite length_app. simpl length. lia. Qed.

Lemma len_repeat {A : Type} (x : A) (n : Z) : 0 <= n -> len (repeat x (Z.to_nat n)) = n.
Proof. intros Hn. unfold len. rewrite repeat_length. lia. Qed.

(** *** Slices of a concatenation *)

Lemma slice_prefix {A : Type} (l1 l2 : list A) : slice (l1 ++ l2) 0 (len l1) = l1.
Proof.
  unfold slice, len. simpl. rewrite Z.sub_0_r, Nat2Z.id.
  rewrite firstn_app, Nat.sub_diag, firstn_all. simpl. apply app_nil_r.
Qed.

Lemma slice_prefix_eq {A : Type} (l1 l2 : list A) (b : Z) :
  b = len l1 -> slice (l1 ++ l2) 0 b = l1.
Proof. intros ->. apply slice_prefix. Qed.

Lemma slice_middle {A : Type} (l1 l2 l3 : list A) (a b : Z) :
  a = len l1 -> b = len l1 + len l2 -> slice (l1 ++ l2 ++ l3) a b = l2.
Proof.
  intros -> ->. unfold slice, len.
  replace (Z.of_nat (length l1) + Z.of_nat (length l2) - Z.of_nat (length l1))
    with (Z.of_nat (length l2)) by lia.
  rewrite !Nat2Z.id, skipn_app, skipn_all, Nat.sub_diag. simpl.
  rewrite firstn_app, Nat.sub_diag, firstn_all. simpl. apply app_nil_r.
Qed.

Lemma slice_suffix {A : Type} (l1 l2 : list A) (a b : Z) :
  a = len l1 -> b = len l1 + len l2 -> slice (l1 ++ l2) a b = l2.
Proof.
  intros Ha Hb. rewrite <- (app_nil_r l2) at 1. apply slice_middle; assumption.
Qed.

Lemma len_slice {A : Type} (l : list A) (a b : Z) :
  0 <= a -> a <= b -> b <= len l -> len (slice l a b) = b - a.
Proof.
  intros Ha Hab Hb. unfold slice, len in *.
  rewrite length_firstn, length_skipn. lia.
Qed.

(** *** Big-endian integers *)

Lemma from_bytes_snoc (l : bytes) (b : byte) :
  from_bytes (l ++ [b]) = from_bytes l * 256 + Z_of_byte b.
Proof. unfold from_bytes. rewrite fold_left_app. reflexivity. Qed.

Lemma from_bytes_range (l : bytes) : 0 <= from_bytes l < 256 ^ len l.
Proof.
  induction l as [|b l IH] using rev_ind.
  - cbn. lia.
  - rewrite from_bytes_snoc, len_snoc.
    pose proof (Z_of_byte_range b). pose proof (len_nonneg l).
    rewrite Z.pow_succ_r by assumption. lia.
Qed.

Lemma from_bytes_app (l1 l2 : bytes) :
  from_bytes (l1 ++ l2) = from_bytes l1 * 256 ^ len l2 + from_bytes l2.
Proof.
  induction l2 as [|b l2 IH] using rev_ind.
  - rewrite app_nil_r. cbn. lia.
  - rewrite app_assoc, !from_bytes_snoc, IH, len_snoc.
    pose proof (len_nonneg l2).
    rewrite Z.pow_succ_r by assumption. lia.
Qed.

Lemma from_bytes_cons (b : byte) (l : bytes) :
  from_bytes (b :: l) = Z_of_byte b * 256 ^ len l + from_bytes l.
Proof.
  change (b :: l) with ([b] ++ l). rewrite from_bytes_app.
  cbn [from_bytes fold_left]. lia.
Qed.

Lemma length_be_bytes (k : nat) (n : Z) : length (be_bytes k n) = k.
Proof.
  revert n. induction k as [|k IH]; intros n; simpl.
  - reflexivity.
  - rewrite length_app, IH. simpl. lia.
Qed.

Lemma len_be_bytes (k : nat) (n : Z) : len (be_bytes k n) = Z.of_nat k.
Proof. unfold len. rewrite length_be_bytes. reflexivity. Qed.

Lemma from_bytes_be_bytes (k : nat) (n : Z) :
  0 <= n < 256 ^ Z.of_nat k -> from_bytes (be_bytes k n) = n.
Proof.
  revert n. induction k as [|k IH]; intros n Hn.
  - cbn in *. lia.
  - cbn [be_bytes]. rewrite from_bytes_snoc.
    rewrite Nat2Z.inj_succ, Z.pow_succ_r in Hn by lia.
    rewrite IH.
    + rewrite Z_of_byte_of_Z by (apply Z.mod_pos_bound; lia).
      pose proof (Z.div_mod n 256). lia.
    + split.
      * apply Z.div_pos; lia.
      * apply Z.div_lt_upper_bound; lia.
Qed.

Lemma be_bytes_from_bytes (l : bytes) : be_bytes (length l) (from_bytes l) = l.
Proof.
  induction l as [|b l IH] using rev_ind.
  - reflexivity.
  - rewrite length_app. simpl length. rewrite Nat.add_1_r. cbn [be_bytes].
    rewrite from_bytes_snoc. pose proof (Z_of_byte_range b).
    replace ((from_bytes l * 256 + Z_of_byte b) / 256) with (from_bytes l)
      by (apply Z.div_unique with (r := Z_of_byte b); lia).
    replace ((from_bytes l * 256 + Z_of_byte b) mod 256) with (Z_of_byte b)
      by (apply Z.mod_unique with (q := from_bytes l); lia).
    rewrite IH, byte_of_Z_of_byte. reflexivity.
Qed.

Lemma to_bytes_from_bytes (l : bytes) : to_bytes (from_bytes l) (len l) = Ok l.
Proof.
  unfold to_bytes. pose proof (from_bytes_range l).
  destruct (Z.ltb_spec (from_bytes l) 0); [lia|].
  destruct (Z.leb_spec (256 ^ len l) (from_bytes l)); [lia|].
  unfold len. rewrite Nat2Z.id, be_bytes_from_bytes. reflexivity.
Qed.

Lemma to_bytes_ok (n k : Z) :
  0 <= n < 256 ^ k -> to_bytes n k = Ok (be_bytes (Z.to_nat k) n).
Proof.
  intros Hn. unfold to_bytes.
  destruct (Z.ltb_spec n 0); [lia|].
  destruct (Z.leb_spec (256 ^ k) n); [lia|]. reflexivity.
Qed.

Lemma to_bytes_len (n k : Z) (l : bytes) : 0 <= k -> to_bytes n k = Ok l -> len l = k.
Proof.
  intros Hk. unfold to_bytes.
  destruct (n <? 0); [discriminate|].
  destruct (256 ^ k <=? n); [discriminate|].
  intros [= <-]. unfold len. rewrite length_be_bytes. lia.
Qed.

Lemma to_bytes_value (n k : Z) (l : bytes) :
  0 <= k -> to_bytes n k = Ok l -> from_bytes l = n.
Proof.
  intros Hk. unfold to_bytes.
  destruct (Z.ltb_spec n 0); [discriminate|].
  destruct (Z.leb_spec (256 ^ k) n); [discriminate|].
  intros [= <-]. apply from_bytes_be_bytes. rewrite Z2Nat.id; lia.
Qed.

(** *** The UTF-8 codec *)

Ltac zdm := Z.div_mod_to_equations; lia.

(** Decides the comparisons of a goal by the arithmetic of its context. *)
Ltac decide_tests :=
  repeat match goal with
    | |- context [?a <? ?b] =>
        destruct (Z.ltb_spec a b); try (exfalso; zdm)
    | |- context [?a <=? ?b] =>
        destruct (Z.leb_spec a b); try (exfalso; zdm)
    end.

Lemma bind_ok {A B : Type} (m : result A) (k : A -> result B) (v : B) :
  bind m k = Ok v -> exists a, m = Ok a /\ k a = Ok v.
Proof.
  destruct m as [a|e]; simpl; intros H.
  - exists a. split; [reflexivity | exact H].
  - discriminate.
Qed.

Lemma Some_eq {A : Type} (x y : A) : Some x = Some y -> x = y.
Proof. intros H. congruence. Qed.

Lemma Ok_eq {A : Type} (x y : A) : Ok x = Ok y -> x = y.
Proof. intros H. congruence. Qed.

Lemma Raise_eq {A : Type} (e1 e2 : exn) : @Raise A e1 = Raise e2 -> e1 = e2.
Proof. intros H. congruence. Qed.

Lemma Ok_pair_eq {A B : Type} (a c : A) (b d : B) :
  Ok (a, b) = Ok (c, d) -> a = c /\ b = d.
Proof. intros H. split; congruence. Qed.

Lemma utf8_encode_char_decode (c : Z) (bs rest : bytes) :
  utf8_encode_char c = Some bs ->
  decode_utf8 (bs ++ rest) = (r <- decode_utf8 rest ;; Ok (c :: r)).
Proof.
  unfold utf8_encode_char, surrogate.
  destruct (Z.ltb_spec c 0); [discriminate|].
  destruct (Z.ltb_spec c 0x80).
  { intros E. apply Some_eq in E. subst bs. cbn [app decode_utf8].
    rewrite Z_of_byte_of_Z by lia. decide_tests. reflexivity. }
  destruct (Z.ltb_spec c 0x800).
  { intros E. apply Some_eq in E. subst bs. cbn [app decode_utf8].
    unfold continuation.
    rewrite !Z_of_byte_of_Z by zdm. decide_tests. cbn [andb].
    replace ((0xC0 + c / 64 - 0xC0) * 64 + (0x80 + c mod 64 - 0x80)) with c by zdm.
    reflexivity. }
  destruct (Z.ltb_spec c 0x10000).
  { destruct (Z.leb_spec 0xD800 c); destruct (Z.leb_spec c 0xDFFF);
      cbn [andb]; try discriminate;
      intros E; apply Some_eq in E; subst bs;
      cbn [app decode_utf8]; unfold continuation, surrogate;
      rewrite !Z_of_byte_of_Z by zdm;
      replace ((0xE0 + c / 4096 - 0xE0) * 4096 + (0x80 + (c / 64) mod 64 - 0x80) * 64
               + (0x80 + c mod 64 - 0x80)) with c by zdm;
      decide_tests; reflexivity. }
  destruct (Z.ltb_spec c 0x110000); [|discriminate].
  intros E. apply Some_eq in E. subst bs. cbn [app decode_utf8]. unfold continuation.
  rewrite !Z_of_byte_of_Z by zdm.
  replace ((0xF0 + c / 262144 - 0xF0) * 262144 + (0x80 + (c / 4096) mod 64 - 0x80) * 4096
           + (0x80 + (c / 64) mod 64 - 0x80) * 64 + (0x80 + c mod 64 - 0x80))
    with c by zdm.
  decide_tests. reflexivity.
Qed.

(** Decoding what the encoder wrote gives the text back. *)
Lemma decode_encode_utf8 (s : str) (bs : bytes) :
  encode_utf8 s = Ok bs -> decode_utf8 bs = Ok s.
Proof.
  revert bs. induction s as [|c s IH]; intros bs.
  - intros [= <-]. reflexivity.
  - cbn [encode_utf8]. destruct (utf8_encode_char c) as [cb|] eqn:Ec; [|discriminate].
    intros H. apply bind_ok in H. destruct H as (rest & Hrest & [= <-]).
    rewrite (utf8_encode_char_decode _ _ _ Ec), (IH _ Hrest). reflexivity.
Qed.

Lemma utf8_encode_char_width (c : Z) (bs : bytes) :
  utf8_encode_char c = Some bs -> len bs = utf8_width c.
Proof.
  unfold utf8_encode_char, utf8_width.
  destruct (c <? 0); [discriminate|].
  destruct (c <? 0x80); [intros [= <-]; reflexivity|].
  destruct (c <? 0x800); [intros [= <-]; reflexivity|].
  destruct (c <? 0x10000).
  - destruct (surrogate c); [discriminate|]. intros [= <-]. reflexivity.
  - destruct (c <? 0x110000); [|discriminate]. intros [= <-]. reflexivity.
Qed.

Lemma utf8_width_range (c : Z) : 1 <= utf8_width c <= 4.
Proof.
  unfold utf8_width.
  destruct (c <? 0x80), (c <? 0x800), (c <? 0x10000); lia.
Qed.

Lemma utf8_size_nonneg (s : str) : 0 <= utf8_size s.
Proof.
  induction s as [|c s IH]; simpl; [lia|]. pose proof (utf8_width_range c). lia.
Qed.

Lemma encode_utf8_len (s : str) (bs : bytes) :
  encode_utf8 s = Ok bs -> len bs = utf8_size s.
Proof.
  revert bs. induction s as [|c s IH]; intros bs.
  - intros [= <-]. reflexivity.
  - cbn [encode_utf8 utf8_size fold_right].
    destruct (utf8_encode_char c) as [cb|] eqn:Ec; [|discriminate].
    intros H. apply bind_ok in H. destruct H as (rest & Hrest & [= <-]).
    rewrite len_app, (utf8_encode_char_width _ _ Ec).
    fold (utf8_size s). rewrite (IH _ Hrest). reflexivity.
Qed.

Lemma utf8_encode_char_some (c : Z) :
  code_point c -> surrogate c = false -> exists bs, utf8_encode_char c = Some bs.
Proof.
  unfold code_point, utf8_encode_char. intros Hc Hs. rewrite Hs.
  destruct (Z.ltb_spec c 0); [lia|].
  destruct (c <? 0x80); [eauto|].
  destruct (c <? 0x800); [eauto|].
  destruct (c <? 0x10000); [eauto|].
  destruct (Z.ltb_spec c 0x110000); [eauto|lia].
Qed.

Lemma utf8_encode_char_none (c : Z) :
  utf8_encode_char c = None -> ~ code_point c \/ surrogate c = true.
Proof.
  unfold code_point, utf8_encode_char.
  destruct (Z.ltb_spec c 0); [intros _; left; lia|].
  destruct (c <? 0x80); [discriminate|].
  destruct (c <? 0x800); [discriminate|].
  destruct (c <? 0x10000).
  - destruct (surrogate c); [intros _; right; reflexivity | discriminate].
  - destruct (Z.ltb_spec c 0x110000); [discriminate|]. intros _. left. lia.
Qed.

(** The encoder accepts exactly the texts that hold no surrogate. *)
Lemma encode_utf8_ok (s : str) :
  well_formed s -> no_surrogate s -> exists bs, encode_utf8 s = Ok bs.
Proof.
  unfold well_formed, no_surrogate.
  induction s as [|c s IH]; intros Hw Hn.
  - exists []. reflexivity.
  - inversion Hw as [|? ? Hc Hw']; subst. inversion Hn as [|? ? Hs Hn']; subst.
    destruct (utf8_encode_char_some c Hc Hs) as [cb Ecb].
    destruct (IH Hw' Hn') as [rest Erest].
    exists (cb ++ rest). cbn [encode_utf8]. rewrite Ecb, Erest. reflexivity.
Qed.

Lemma encode_utf8_surrogate (s1 s2 : str) (c : Z) :
  surrogate c = true -> encode_utf8 (s1 ++ c :: s2) = Raise UnicodeEncodeError.
Proof.
  intros Hc. induction s1 as [|d s1 IH]; cbn [app encode_utf8].
  - unfold utf8_encode_char. rewrite Hc.
    unfold surrogate in Hc. apply andb_prop in Hc. destruct Hc as [H1 H2].
    apply Z.leb_le in H1. apply Z.leb_le in H2.
    destruct (Z.ltb_spec c 0); [lia|].
    destruct (Z.ltb_spec c 0x80); [lia|].
    destruct (Z.ltb_spec c 0x800); [lia|].
    destruct (Z.ltb_spec c 0x10000); [reflexivity|lia].
  - destruct (utf8_encode_char d); [|reflexivity]. rewrite IH. reflexivity.
Qed.

(** Decoding accepts only what the encoder writes. *)
Lemma utf8_encode_char_1 (z0 : Z) :
  0 <= z0 < 0x80 -> utf8_encode_char z0 = Some [byte_of_Z z0].
Proof.
  intros H. unfold utf8_encode_char. decide_tests. reflexivity.
Qed.

Lemma utf8_encode_char_2 (z0 z1 : Z) :
  0xC2 <= z0 < 0xE0 -> 0x80 <= z1 <= 0xBF ->
  utf8_encode_char ((z0 - 0xC0) * 64 + (z1 - 0x80)) = Some [byte_of_Z z0; byte_of_Z z1].
Proof.
  intros H0 H1. unfold utf8_encode_char.
  set (c := (z0 - 0xC0) * 64 + (z1 - 0x80)).
  assert (Hc : 0x80 <= c < 0x800) by (subst c; lia).
  assert (E0 : 0xC0 + c / 64 = z0) by (subst c; zdm).
  assert (E1 : 0x80 + c mod 64 = z1) by (subst c; zdm).
  rewrite E0, E1.
  destruct (Z.ltb_spec c 0); [lia|].
  destruct (Z.ltb_spec c 0x80); [lia|].
  destruct (Z.ltb_spec c 0x800); [reflexivity|lia].
Qed.

Lemma utf8_encode_char_3 (z0 z1 z2 : Z) :
  let c := (z0 - 0xE0) * 4096 + (z1 - 0x80) * 64 + (z2 - 0x80) in
  0xE0 <= z0 < 0xF0 -> 0x80 <= z1 <= 0xBF -> 0x80 <= z2 <= 0xBF ->
  0x800 <= c -> surrogate c = false ->
  utf8_encode_char c = Some [byte_of_Z z0; byte_of_Z z1; byte_of_Z z2].
Proof.
  intros c H0 H1 H2 Hc Hs. unfold utf8_encode_char. rewrite Hs.
  assert (Hc' : c < 0x10000) by (subst c; lia).
  assert (E0 : 0xE0 + c / 4096 = z0) by (subst c; zdm).
  assert (E1 : 0x80 + (c / 64) mod 64 = z1) by (subst c; zdm).
  assert (E2 : 0x80 + c mod 64 = z2) by (subst c; zdm).
  rewrite E0, E1, E2.
  destruct (Z.ltb_spec c 0); [lia|].
  destruct (Z.ltb_spec c 0x80); [lia|].
  destruct (Z.ltb_spec c 0x800); [lia|].
  destruct (Z.ltb_spec c 0x10000); [reflexivity|lia].
Qed.

Lemma utf8_encode_char_4 (z0 z1 z2 z3 : Z) :
  let c := (z0 - 0xF0) * 262144 + (z1 - 0x80) * 4096 + (z2 - 0x80) * 64 + (z3 - 0x80) in
  0xF0 <= z0 < 0xF5 -> 0x80 <= z1 <= 0xBF -> 0x80 <= z2 <= 0xBF -> 0x80 <= z3 <= 0xBF ->
  0x10000 <= c < 0x110000 ->
  utf8_encode_char c = Some [byte_of_Z z0; byte_of_Z z1; byte_of_Z z2; byte_of_Z z3].
Proof.
  intros c H0 H1 H2 H3 Hc. unfold utf8_encode_char.
  assert (E0 : 0xF0 + c / 262144 = z0) by (subst c; zdm).
  assert (E1 : 0x80 + (c / 4096) mod 64 = z1) by (subst c; zdm).
  assert (E2 : 0x80 + (c / 64) mod 64 = z2) by (subst c; zdm).
  assert (E3 : 0x80 + c mod 64 = z3) by (subst c; zdm).
  rewrite E0, E1, E2, E3.
  destruct (Z.ltb_spec c 0); [lia|].
  destruct (Z.ltb_spec c 0x80); [lia|].
  destruct (Z.ltb_spec c 0x800); [lia|].
  destruct (Z.ltb_spec c 0x10000); [lia|].
  destruct (Z.ltb_spec c 0x110000); [reflexivity|lia].
Qed.

Lemma continuation_range (z : Z) : continuation z = true -> 0x80 <= z <= 0xBF.
Proof.
  unfold continuation. intros H. apply andb_prop in H. destruct H as [H1 H2].
  apply Z.leb_le in H1. apply Z.leb_le in H2. lia.
Qed.

Lemma encode_decode_utf8_bounded (n : nat) (bs : bytes) (s : str) :
  (length bs <= n)%nat -> decode_utf8 bs = Ok s -> encode_utf8 s = Ok bs.
Proof.
  revert bs s. induction n as [|n IH]; intros bs s Hlen.
  { destruct bs; [|simpl in Hlen; lia]. intros [= <-]. reflexivity. }
  destruct bs as [|b0 t0]; [intros [= <-]; reflexivity|].
  cbn [decode_utf8]. simpl length in Hlen.
  pose proof (Z_of_byte_range b0) as R0.
  destruct (Z.ltb_spec (Z_of_byte b0) 0x80).
  { intros Hdec. apply bind_ok in Hdec. destruct Hdec as (rest & Hrest & E).
    apply (f_equal (fun r => match r with Ok v => v | Raise _ => [] end)) in E.
    subst s. cbn [encode_utf8].
    rewrite utf8_encode_char_1, byte_of_Z_of_byte by lia.
    rewrite (IH t0 rest) by (assumption || lia). reflexivity. }
  destruct (Z.ltb_spec (Z_of_byte b0) 0xC2); [discriminate|].
  destruct (Z.ltb_spec (Z_of_byte b0) 0xE0).
  { destruct t0 as [|b1 t1]; [discriminate|]. simpl length in Hlen.
    destruct (continuation (Z_of_byte b1)) eqn:C1; [|discriminate].
    apply continuation_range in C1.
    intros Hdec. apply bind_ok in Hdec. destruct Hdec as (rest & Hrest & E).
    apply (f_equal (fun r => match r with Ok v => v | Raise _ => [] end)) in E.
    subst s. cbn [encode_utf8].
    rewrite utf8_encode_char_2, !byte_of_Z_of_byte by lia.
    rewrite (IH t1 rest) by (assumption || lia). reflexivity. }
  destruct (Z.ltb_spec (Z_of_byte b0) 0xF0).
  { destruct t0 as [|b1 [|b2 t2]]; try discriminate. simpl length in Hlen.
    destruct (continuation (Z_of_byte b1)) eqn:C1; [|discriminate].
    destruct (continuation (Z_of_byte b2)) eqn:C2; [|discriminate].
    cbn [andb].
    match goal with |- context [0x800 <=? ?c] => set (cp := c) end.
    destruct (Z.leb_spec 0x800 cp); [|discriminate].
    destruct (surrogate cp) eqn:Sg; [discriminate|]. cbn [andb negb].
    apply continuation_range in C1. apply continuation_range in C2.
    intros Hdec. apply bind_ok in Hdec. destruct Hdec as (rest & Hrest & E).
    apply (f_equal (fun r => match r with Ok v => v | Raise _ => [] end)) in E.
    subst s. cbn [encode_utf8]. subst cp.
    rewrite utf8_encode_char_3, !byte_of_Z_of_byte by (assumption || lia).
    rewrite (IH t2 rest) by (assumption || lia). reflexivity. }
  destruct (Z.ltb_spec (Z_of_byte b0) 0xF5); [|discriminate].
  destruct t0 as [|b1 [|b2 [|b3 t3]]]; try discriminate. simpl length in Hlen.
  destruct (continuation (Z_of_byte b1)) eqn:C1; [|discriminate].
  destruct (continuation (Z_of_byte b2)) eqn:C2; [|discriminate].
  destruct (continuation (Z_of_byte b3)) eqn:C3; [|discriminate].
  cbn [andb].
  match goal with |- context [0x10000 <=? ?c] => set (cp := c) end.
  destruct (Z.leb_spec 0x10000 cp); [|discriminate].
  destruct (Z.ltb_spec cp 0x110000); [|discriminate]. cbn [andb].
  apply continuation_range in C1. apply continuation_range in C2.
  apply continuation_range in C3.
  intros Hdec. apply bind_ok in Hdec. destruct Hdec as (rest & Hrest & E).
  apply (f_equal (fun r => match r with Ok v => v | Raise _ => [] end)) in E.
  subst s. cbn [encode_utf8]. subst cp.
  rewrite utf8_encode_char_4, !byte_of_Z_of_byte by (assumption || lia).
  rewrite (IH t3 rest) by (assumption || lia). reflexivity.
Qed.

Lemma encode_decode_utf8 (bs : bytes) (s : str) :
  decode_utf8 bs = Ok s -> encode_utf8 s = Ok bs.
Proof. apply encode_decode_utf8_bounded with (n := length bs). lia. Qed.

(** *** [int] and [str] *)

Lemma digit_in_10 (d : Z) : 0 <= d < 10 -> digit_in 10 (digit_char d) = Some d.
Proof.
  intros Hd. unfold digit_in, digit_value, digit_char.
  destruct (Z.leb_spec 48 (48 + d)); [|lia].
  destruct (Z.leb_spec (48 + d) 57); [|lia]. cbn [andb].
  destruct (Z.ltb_spec (48 + d - 48) 10); [|lia]. f_equal. lia.
Qed.

Lemma parse_digit_char (a d : Z) (flag : bool) (s : str) :
  0 <= d < 10 ->
  parse_digits 10 a flag (digit_char d :: s) = parse_digits 10 (a * 10 + d) true s.
Proof.
  intros Hd. cbn [parse_digits]. rewrite digit_in_10 by assumption.
  unfold digit_char. destruct (Z.eqb_spec (48 + d) 95); [lia|]. reflexivity.
Qed.

(** Reading the digits written for [n] shifts the value read so far by
    their number and adds [n]. *)
Lemma parse_dec_digits (fuel : nat) :
  forall (n : Z) (acc : str),
    0 <= n < 2 ^ Z.of_nat (S fuel) ->
    exists k, 0 <= k /\
      forall (a : Z) (flag : bool),
        parse_digits 10 a flag (dec_digits (S fuel) n acc)
        = parse_digits 10 (a * 10 ^ k + n) true acc.
Proof.
  induction fuel as [|fuel IH]; intros n acc Hn.
  - exists 1. split; [lia|]. intros a flag. cbn [dec_digits].
    change (2 ^ Z.of_nat 1) with 2 in Hn.
    destruct (Z.ltb_spec n 10); [|lia].
    rewrite Z.mod_small by lia. rewrite parse_digit_char by lia.
    f_equal; lia.
  - cbn [dec_digits]. destruct (Z.ltb_spec n 10).
    + exists 1. split; [lia|]. intros a flag.
      rewrite Z.mod_small by lia. rewrite parse_digit_char by lia.
      f_equal; lia.
    + assert (Hq : 0 <= n / 10 < 2 ^ Z.of_nat (S fuel)).
      { rewrite Nat2Z.inj_succ, Z.pow_succ_r in Hn by lia.
        split; [apply Z.div_pos; lia|].
        apply Z.div_lt_upper_bound; lia. }
      destruct (IH (n / 10) (digit_char (n mod 10) :: acc) Hq) as (k & Hk & E).
      exists (Z.succ k). split; [lia|]. intros a flag.
      rewrite E. rewrite parse_digit_char by (apply Z.mod_pos_bound; lia).
      f_equal. rewrite Z.pow_succ_r by assumption.
      pose proof (Z.div_mod n 10). lia.
Qed.

Lemma dec_digits_digits (fuel : nat) :
  forall (n : Z) (acc : str),
    0 <= n -> Forall digit acc -> Forall digit (dec_digits fuel n acc).
Proof.
  induction fuel as [|fuel IH]; intros n acc Hn Hacc; cbn [dec_digits].
  - assumption.
  - assert (Hd : digit (digit_char (n mod 10))).
    { unfold digit, digit_char. pose proof (Z.mod_pos_bound n 10). lia. }
    destruct (n <? 10).
    + constructor; assumption.
    + apply IH; [apply Z.div_pos; lia | constructor; assumption].
Qed.

Lemma dec_digits_cons (fuel : nat) (n : Z) (acc : str) :
  exists c s, dec_digits (S fuel) n acc = c :: s.
Proof.
  revert n acc. induction fuel as [|fuel IH]; intros n acc.
  - cbn [dec_digits]. destruct (n <? 10); eauto.
  - cbn [dec_digits]. destruct (n <? 10); [eauto|].
    apply (IH (n / 10) (digit_char (n mod 10) :: acc)).
Qed.

Lemma fuel_enough (n : Z) : 0 <= n -> n < 2 ^ Z.of_nat (S (Z.to_nat (Z.log2 n))).
Proof.
  intros Hn. pose proof (Z.log2_nonneg n).
  rewrite Nat2Z.inj_succ, Z2Nat.id by assumption.
  destruct (Z.eq_dec n 0) as [->|Hnz].
  - reflexivity.
  - apply Z.log2_spec. lia.
Qed.

Lemma lstrip_digits (s : str) : Forall digit s -> lstrip s = s.
Proof.
  intros H. destruct H as [|c s Hc Hs]; [reflexivity|].
  cbn [lstrip]. unfold is_space, digit in *.
  destruct (Z.leb_spec 9 c), (Z.leb_spec c 13), (Z.eqb_spec c 32);
    cbn [andb orb]; try reflexivity; lia.
Qed.

Lemma strip_digits (s : str) : Forall digit s -> strip s = s.
Proof.
  intros H. unfold strip. rewrite (lstrip_digits s H).
  rewrite lstrip_digits by (apply Forall_rev; assumption).
  apply rev_involutive.
Qed.

Lemma over_limit_unbounded (digits : Z) : over_limit 0 digits = false.
Proof. reflexivity. Qed.

(** Without a digit limit, [str_of_int] never raises. *)
Lemma str_of_int_unbounded (n : Z) :
  str_of_int 0 n = Ok (if n <? 0 then 45 :: decimal (Z.abs n) else decimal (Z.abs n)).
Proof. unfold str_of_int. rewrite over_limit_unbounded. reflexivity. Qed.

(** [int] reads ASCII text as it is. *)
Lemma to_ascii_digits (s : str) : Forall digit s -> map to_ascii s = s.
Proof.
  induction 1 as [|c s Hc Hs IH]; [reflexivity|]. cbn [map]. rewrite IH.
  unfold to_ascii, digit in *. destruct (Z.ltb_spec c 127); [reflexivity | lia].
Qed.

Lemma int_of_str_unsigned (limit : Z) (body r : str) (c : Z) :
  map to_ascii body = body ->
  strip body = body -> body = c :: r -> c <> 45 -> c <> 43 ->
  int_of_str limit 10 body =
  match parse_digits 10 0 false body with
  | None => Raise ValueError
  | Some n => if over_limit limit (count_digits body) then Raise ValueError else Ok n
  end.
Proof.
  intros Ha Hs E H45 H43. unfold int_of_str. rewrite Ha, Hs. subst body.
  destruct (Z.eqb_spec c 45); [contradiction|].
  destruct (Z.eqb_spec c 43); [contradiction|]. reflexivity.
Qed.

(** [int(str(n)) == n] for [n >= 0]. *)
Lemma int_of_decimal (n : Z) : 0 <= n -> int_of_str 0 10 (decimal n) = Ok n.
Proof.
  intros Hn.
  assert (Hd : Forall digit (decimal n)).
  { apply dec_digits_digits; [assumption | constructor]. }
  destruct (dec_digits_cons (Z.to_nat (Z.log2 n)) n []) as (c & s & E).
  fold (decimal n) in E.
  assert (Hc : digit c) by (rewrite E in Hd; inversion Hd; assumption).
  unfold digit in Hc.
  destruct (parse_dec_digits (Z.to_nat (Z.log2 n)) n [] (conj Hn (fuel_enough n Hn)))
    as (k & Hk & P).
  fold (decimal n) in P.
  rewrite (int_of_str_unsigned 0 (decimal n) s c (to_ascii_digits _ Hd)
             (strip_digits _ Hd) E) by lia.
  rewrite (P 0 false). cbn [parse_digits]. reflexivity.
Qed.

End PyFacts.

(** * Header framing *)

Module Framing.
Import Py Main Spec PyFacts.

Lemma frame_inv (data : bytes) (filename : str) (full_data : bytes) :
  frame data filename = Ok full_data ->
  exists filename_bytes,
    encode_utf8 filename = Ok filename_bytes
    /\ len filename_bytes < 256 ^ 4 /\ len data < 256 ^ 4
    /\ full_data = framed filename_bytes data.
Proof.
  unfold frame. intros H.
  apply bind_ok in H. destruct H as (fb & Hfb & H).
  apply bind_ok in H. destruct H as (h1 & Hh1 & H).
  apply bind_ok in H. destruct H as (h2 & Hh2 & H).
  exists fb. unfold to_bytes in Hh1, Hh2.
  destruct (Z.ltb_spec (len fb) 0); [discriminate|].
  destruct (Z.leb_spec (256 ^ 4) (len fb)); [discriminate|].
  destruct (Z.ltb_spec (len data) 0); [discriminate|].
  destruct (Z.leb_spec (256 ^ 4) (len data)); [discriminate|].
  apply (f_equal (fun r => match r with Ok v => v | Raise _ => [] end)) in Hh1, Hh2, H.
  subst h1 h2 full_data. repeat split; try assumption.
  unfold framed. change (Z.to_nat 4) with 4%nat. rewrite <- !app_assoc. reflexivity.
Qed.

Lemma frame_ok (data : bytes) (filename : str) (filename_bytes : bytes) :
  encode_utf8 filename = Ok filename_bytes ->
  len filename_bytes < 256 ^ 4 -> len data < 256 ^ 4 ->
  frame data filename = Ok (framed filename_bytes data).
Proof.
  intros Hfb Hf Hd. unfold frame, framed. rewrite Hfb. cbn [bind].
  pose proof (len_nonneg filename_bytes). pose proof (len_nonneg data).
  rewrite !to_bytes_ok by lia. cbn [bind].
  change (Z.to_nat 4) with 4%nat. rewrite <- !app_assoc. reflexivity.
Qed.

Lemma decode_utf8_raises (l : bytes) (e : exn) :
  decode_utf8 l = Raise e -> e = UnicodeDecodeError.
Proof.
  assert (G : forall n l e, (length l <= n)%nat ->
                decode_utf8 l = Raise e -> e = UnicodeDecodeError).
  { clear. induction n as [|n IH]; intros l e Hl.
    { destruct l; [discriminate | simpl in Hl; lia]. }
    assert (K : forall (t : bytes) (c : Z),
               (length t <= n)%nat ->
               (rest <- decode_utf8 t ;; Ok (c :: rest)) = Raise e ->
               e = UnicodeDecodeError).
    { intros t c Ht. destruct (decode_utf8 t) as [v|e'] eqn:E; cbn [bind].
      - discriminate.
      - intros [= <-]. exact (IH t e' Ht E). }
    destruct l as [|b0 t0]; [discriminate|]. simpl length in Hl.
    cbn [decode_utf8].
    destruct (Z_of_byte b0 <? 0x80); [apply K; lia|].
    destruct (Z_of_byte b0 <? 0xC2); [congruence|].
    destruct (Z_of_byte b0 <? 0xE0).
    { destruct t0 as [|b1 t1]; [congruence|]. simpl length in Hl.
      destruct (continuation (Z_of_byte b1)); [apply K; lia | congruence]. }
    destruct (Z_of_byte b0 <? 0xF0).
    { destruct t0 as [|b1 [|b2 t2]]; try congruence. simpl length in Hl.
      match goal with |- context [if ?c then _ else _] => destruct c end;
        [apply K; lia | congruence]. }
    destruct (Z_of_byte b0 <? 0xF5); [|congruence].
    destruct t0 as [|b1 [|b2 [|b3 t3]]]; try congruence. simpl length in Hl.
    match goal with |- context [if ?c then _ else _] => destruct c end;
      [apply K; lia | congruence]. }
  apply (G (length l)). lia.
Qed.

(** The strict reading either returns or ends; it never raises. What it
    returns is read off the buffer at the places the header names. *)
Lemma strict_unframe_spec (buffer : bytes) :
  let fl := filename_length buffer in
  let dl := payload_length buffer in
  (strict_unframe buffer = Ok None /\ validation_fails buffer)
  \/ (exists filename,
        strict_unframe buffer = Ok (Some (slice buffer (8 + fl) (8 + fl + dl), filename))
        /\ decode_utf8 (filename_slice buffer) = Ok filename
        /\ 0 <= fl <= 500 /\ 0 <= dl /\ 8 + fl + dl <= len buffer).
Proof.
  intros fl dl. subst fl dl. unfold strict_unframe, validation_fails. cbv zeta.
  fold (filename_length buffer).
  replace (4 + filename_length buffer + 4) with (8 + filename_length buffer) by lia.
  fold (filename_slice buffer). fold (payload_length buffer).
  pose proof (from_bytes_range (slice buffer 0 4)) as Rfl.
  pose proof (from_bytes_range
                (slice buffer (4 + filename_length buffer) (8 + filename_length buffer)))
    as Rdl.
  fold (filename_length buffer) in Rfl. fold (payload_length buffer) in Rdl.
  set (fl := filename_length buffer) in *. set (dl := payload_length buffer) in *.
  destruct (Z.leb_spec 8 (len buffer)); cbn [try_except];
    [| left; split; [reflexivity | lia]].
  destruct (Z.leb_spec 0 fl); [|lia].
  destruct (Z.leb_spec fl 500); cbn [andb try_except];
    [| left; split; [reflexivity | lia]].
  destruct (Z.leb_spec (4 + fl) (len buffer)); cbn [try_except];
    [| left; split; [reflexivity | lia]].
  destruct (decode_utf8 (filename_slice buffer)) as [filename|e] eqn:Edec;
    cbn [bind try_except].
  2:{ left. rewrite (decode_utf8_raises _ _ Edec). cbn. split; [reflexivity|].
      right. left. exists UnicodeDecodeError. reflexivity. }
  destruct (Z.leb_spec (8 + fl) (len buffer)); cbn [try_except];
    [| left; split; [reflexivity | lia]].
  destruct (Z.leb_spec dl (len buffer - (8 + fl))); cbn [try_except].
  - right. exists filename. repeat split; try lia.
  - left. split; [reflexivity|]. lia.
Qed.

Lemma unframe_total (buffer : bytes) : exists r, unframe buffer = Ok r.
Proof.
  unfold unframe.
  destruct (strict_unframe_spec buffer) as [[E _] | (fn & E & _)];
    rewrite E; cbn [bind]; eauto.
Qed.

Lemma unframe_fallback (buffer : bytes) :
  validation_fails buffer -> unframe buffer = Ok (buffer, lit "decoded_file").
Proof.
  intros Hfail. unfold unframe.
  destruct (strict_unframe_spec buffer) as [[E _] | (fn & E & Hdec & Hfl & Hdl & Hlen)].
  - rewrite E. reflexivity.
  - exfalso. unfold validation_fails in Hfail.
    destruct Hfail as [H | [[e H] | [H | H]]]; try lia.
    rewrite Hdec in H. discriminate.
Qed.

(** The fields of a framed buffer, read back. *)
Section Framed.

Variables (filename_bytes data : bytes).
Hypothesis Hname : len filename_bytes < 256 ^ 4.
Hypothesis Hdata : len data < 256 ^ 4.

Lemma framed_len :
  len (framed filename_bytes data) = 8 + len filename_bytes + len data.
Proof.
  unfold framed. rewrite !len_app, !len_be_bytes. lia.
Qed.

Lemma framed_filename_length : filename_length (framed filename_bytes data) = len filename_bytes.
Proof.
  unfold filename_length, framed.
  rewrite slice_prefix_eq by (rewrite len_be_bytes; reflexivity).
  apply from_bytes_be_bytes.
  pose proof (len_nonneg filename_bytes). change (Z.of_nat 4) with 4. lia.
Qed.

Lemma framed_filename_slice : filename_slice (framed filename_bytes data) = filename_bytes.
Proof.
  unfold filename_slice. rewrite framed_filename_length. unfold framed.
  apply slice_middle; rewrite len_be_bytes; reflexivity.
Qed.

Lemma framed_payload_length : payload_length (framed filename_bytes data) = len data.
Proof.
  unfold payload_length. rewrite framed_filename_length. unfold framed.
  rewrite app_assoc.
  rewrite (slice_middle (be_bytes 4 (len filename_bytes) ++ filename_bytes)
             (be_bytes 4 (len data)) data).
  - apply from_bytes_be_bytes.
    pose proof (len_nonneg data). change (Z.of_nat 4) with 4. lia.
  - rewrite len_app, len_be_bytes. lia.
  - rewrite len_app, !len_be_bytes. lia.
Qed.

Lemma framed_payload :
  slice (framed filename_bytes data) (8 + len filename_bytes) (8 + len filename_bytes + len data) = data.
Proof.
  unfold framed. rewrite 2!app_assoc.
  apply slice_suffix; rewrite !len_app, !len_be_bytes; lia.
Qed.

Lemma strict_unframe_framed (filename : str) :
  len filename_bytes <= 500 ->
  decode_utf8 filename_bytes = Ok filename ->
  strict_unframe (framed filename_bytes data) = Ok (Some (data, filename)).
Proof.
  intros H500 Hdec.
  pose proof (len_nonneg filename_bytes). pose proof (len_nonneg data).
  destruct (strict_unframe_spec (framed filename_bytes data)) as [[_ Hfail] | (fn & E & Hfn & _)].
  - exfalso. unfold validation_fails in Hfail.
    rewrite framed_filename_slice, framed_payload_length,
      framed_filename_length, framed_len in Hfail.
    destruct Hfail as [Hf | [[e Hf] | [Hf | Hf]]]; try lia.
    rewrite Hdec in Hf. discriminate.
  - rewrite framed_filename_slice, Hdec in Hfn.
    rewrite framed_payload_length, framed_filename_length, framed_payload in E.
    injection Hfn as <-. exact E.
Qed.

End Framed.

(** Unframing a framed buffer whose filename takes at most 500 bytes. *)
Lemma unframe_frame (data : bytes) (filename : str) (full_data : bytes) :
  frame data filename = Ok full_data ->
  utf8_size filename <= 500 ->
  strict_unframe full_data = Ok (Some (data, filename))
  /\ unframe full_data = Ok (data, filename).
Proof.
  intros Hframe Hsize.
  destruct (frame_inv _ _ _ Hframe) as (fb & Hfb & Hf & Hd & ->).
  rewrite <- (encode_utf8_len _ _ Hfb) in Hsize.
  assert (E : strict_unframe (framed fb data) = Ok (Some (data, filename))).
  { apply strict_unframe_framed; try assumption.
    apply decode_encode_utf8. assumption. }
  split; [exact E|]. unfold unframe. rewrite E. reflexivity.
Qed.

Lemma frame_total (data : bytes) (filename : str) :
  well_formed filename -> no_surrogate filename ->
  utf8_size filename < 256 ^ 4 -> len data < 256 ^ 4 ->
  exists full_data, frame data filename = Ok full_data.
Proof.
  intros Hw Hn Hs Hd.
  destruct (encode_utf8_ok filename Hw Hn) as [fb Hfb].
  rewrite <- (encode_utf8_len _ _ Hfb) in Hs.
  eexists. apply frame_ok; eassumption.
Qed.

(** A payload of [2 ^ 32] bytes or more has no 4-byte length. *)
Lemma frame_payload_too_long (data : bytes) (filename : str) :
  256 ^ 4 <= len data -> raises (frame data filename).
Proof.
  intros Hd. unfold frame.
  destruct (encode_utf8 filename) as [fb|e]; cbn [bind]; [|exact I].
  destruct (to_bytes (len fb) 4) as [h1|e]; cbn [bind]; [|exact I].
  unfold to_bytes. pose proof (len_nonneg data).
  destruct (Z.ltb_spec (len data) 0); [lia|].
  destruct (Z.leb_spec (256 ^ 4) (len data)); [exact I | lia].
Qed.

Example unframe_frame_AB_a_txt :
  (full_data <- frame ["A"; "B"]%byte (lit "a.txt") ;; unframe full_data)
  = Ok (["A"; "B"]%byte, lit "a.txt").
Proof. reflexivity. Qed.

(** *** The claims on header framing *)

(** C4, as amended. For every byte sequence [data] of fewer than [2 ^ 32]
    bytes and every filename without an unpaired surrogate whose UTF-8 form
    takes at most 500 bytes, [frame] builds the buffer (4-byte big-endian filename
    length, filename bytes, 4-byte big-endian payload length, payload) and
    unframing it returns exactly [(data, filename)], by the strict reading
    and not by the fallback. *)
Theorem C4_unframe_frame_strict (data : bytes) (filename : str)
  (Hstr : well_formed filename) (Hsur : no_surrogate filename)
  (Hname : utf8_size filename <= 500) (Hdata : len data < 2 ^ 32) :
  exists filename_bytes,
    encode_utf8 filename = Ok filename_bytes
    /\ frame data filename = Ok (framed filename_bytes data)
    /\ strict_unframe (framed filename_bytes data) = Ok (Some (data, filename))
    /\ unframe (framed filename_bytes data) = Ok (data, filename).
Proof.
  destruct (encode_utf8_ok filename Hstr Hsur) as [fb Hfb].
  exists fb. split; [exact Hfb|].
  assert (Hfit : len fb < 256 ^ 4).
  { rewrite (encode_utf8_len _ _ Hfb). change (256 ^ 4) with 4294967296. lia. }
  assert (Hframe : frame data filename = Ok (framed fb data)).
  { apply frame_ok; assumption. }
  split; [exact Hframe|].
  apply (unframe_frame _ _ _ Hframe Hname).
Qed.

(** C4, a witness: the payload ["AB"] under the name ["a.txt"]. *)
Lemma C4_unframe_frame_strict_witness :
  exists filename_bytes,
    encode_utf8 (lit "a.txt") = Ok filename_bytes
    /\ frame ["A"%byte; "B"%byte] (lit "a.txt")
       = Ok (framed filename_bytes ["A"%byte; "B"%byte])
    /\ strict_unframe (framed filename_bytes ["A"%byte; "B"%byte])
       = Ok (Some (["A"%byte; "B"%byte], lit "a.txt"))
    /\ unframe (framed filename_bytes ["A"%byte; "B"%byte])
       = Ok (["A"%byte; "B"%byte], lit "a.txt").
Proof.
  apply (C4_unframe_frame_strict ["A"%byte; "B"%byte] (lit "a.txt")).
  - repeat constructor; vm_compute; discriminate.
  - repeat constructor.
  - vm_compute. discriminate.
  - vm_compute. reflexivity.
Defined.

(** C4, where the claim as first stated fails: a payload of [2 ^ 32] zero
    bytes under the empty filename meets its conditions, and [frame] raises
    on it, the payload length having no 4-byte form: there is no buffer to
    unframe. *)
Lemma C4_frame_payload_of_4_GiB :
  well_formed [] /\ no_surrogate [] /\ utf8_size [] <= 500
  /\ raises (frame (repeat x00 (Z.to_nat 4294967296)) []).
Proof.
  split; [constructor|]. split; [constructor|]. split; [discriminate|].
  apply frame_payload_too_long. rewrite len_repeat by discriminate. discriminate.
Qed.

(** C5. On every buffer on which strict validation fails (the filename
    length exceeds 500, the filename slice is not valid UTF-8, a length
    field extends past the buffer, or the payload length exceeds the bytes
    left after the two length fields and the filename), [unframe] does not
    raise: it returns the whole buffer, unchanged, as the payload, under
    the name ["decoded_file"]. *)
Theorem C5_unframe_fallback_policy (buffer : bytes)
  (Hfail : validation_fails buffer) :
  strict_unframe buffer = Ok None
  /\ unframe buffer = Ok (buffer, lit "decoded_file").
Proof.
  unfold unframe.
  destruct (strict_unframe_spec buffer)
    as [[E _] | (fn & E & Hdec & Hfl & Hdl & Hlen)].
  - rewrite E. split; reflexivity.
  - exfalso. unfold validation_fails in Hfail.
    destruct Hfail as [H | [[e H] | [H | H]]].
    + lia.
    + rewrite Hdec in H. discriminate.
    + lia.
    + lia.
Qed.

(** C5, a witness: eight bytes whose first four announce a filename of 512
    bytes. *)
Lemma C5_unframe_fallback_policy_witness :
  strict_unframe [x00; x00; x02; x00; "A"; "B"; "C"; "D"]%byte = Ok None
  /\ unframe [x00; x00; x02; x00; "A"; "B"; "C"; "D"]%byte
     = Ok ([x00; x00; x02; x00; "A"; "B"; "C"; "D"]%byte, lit "decoded_file").
Proof.
  apply (C5_unframe_fallback_policy [x00; x00; x02; x00; "A"; "B"; "C"; "D"]%byte).
  left. vm_compute. reflexivity.
Defined.

End Framing.

(** * The big-integer codec *)

Module Prime.
Import Py Main Spec PyFacts Framing.

Lemma pow_256 (k : Z) : 0 <= k -> 256 ^ k = 2 ^ (8 * k).
Proof.
  intros Hk. change 256 with (2 ^ 8). rewrite <- Z.pow_mul_r by lia. reflexivity.
Qed.

(** The byte length that line 87 computes for a number of [m + 1] bytes. *)
Lemma byte_length_bounds (n m : Z) :
  0 <= m -> 256 ^ m <= n < 256 ^ (m + 1) -> (bit_length n + 7) / 8 = m + 1.
Proof.
  intros Hm [Hlo Hhi]. rewrite pow_256 in Hlo, Hhi by lia.
  assert (Hpos : 0 < n) by (pose proof (Z.pow_pos_nonneg 2 (8 * m)); lia).
  unfold bit_length. destruct (Z.eqb_spec n 0); [lia|].
  rewrite Z.abs_eq by lia.
  apply Z.log2_le_pow2 in Hlo; [|assumption].
  apply Z.log2_lt_pow2 in Hhi; [|assumption].
  zdm.
Qed.

Lemma minimal_bytes_zero : minimal_bytes 0 = Ok [].
Proof. reflexivity. Qed.

(** A buffer that starts with a non-zero byte is the shortest form of its
    number. *)
Lemma minimal_bytes_leading (b : byte) (t : bytes) :
  b <> x00 -> minimal_bytes (from_bytes (b :: t)) = Ok (b :: t).
Proof.
  intros Hb. unfold minimal_bytes.
  assert (Hz : 1 <= Z_of_byte b < 256).
  { pose proof (Z_of_byte_range b).
    destruct (Z.eq_dec (Z_of_byte b) 0) as [E|E]; [|lia].
    apply Z_of_byte_zero in E. contradiction. }
  pose proof (from_bytes_range (b :: t)) as R. rewrite len_cons in R.
  pose proof (len_nonneg t) as Ht.
  rewrite (byte_length_bounds _ (len t)).
  - replace (len t + 1) with (len (b :: t)) by (rewrite len_cons; lia).
    apply to_bytes_from_bytes.
  - assumption.
  - split.
    + rewrite from_bytes_cons. pose proof (from_bytes_range t).
      pose proof (Z.pow_pos_nonneg 256 (len t)). nia.
    + replace (len t + 1) with (1 + len t) by lia. lia.
Qed.

Lemma from_bytes_strip_zeros (l : bytes) : from_bytes (strip_zeros l) = from_bytes l.
Proof.
  induction l as [|b t IH]; [reflexivity|]. cbn [strip_zeros].
  destruct (Byte.eqb b x00) eqn:E; [|reflexivity].
  apply Byte.byte_dec_bl in E. subst b. rewrite IH, from_bytes_cons.
  change (Z_of_byte x00) with 0. lia.
Qed.

Lemma strip_zeros_shape (l : bytes) :
  strip_zeros l = [] \/ exists b t, strip_zeros l = b :: t /\ b <> x00.
Proof.
  induction l as [|b t IH]; [left; reflexivity|]. cbn [strip_zeros].
  destruct (Byte.eqb b x00) eqn:E; [exact IH|].
  right. exists b, t. split; [reflexivity|]. apply Byte.eqb_false. exact E.
Qed.

(** Lines 85-88 keep of a buffer what follows its leading zero bytes. *)
Lemma minimal_bytes_from_bytes (l : bytes) :
  minimal_bytes (from_bytes l) = Ok (strip_zeros l).
Proof.
  rewrite <- from_bytes_strip_zeros.
  destruct (strip_zeros_shape l) as [E | (b & t & E & Hb)]; rewrite E.
  - reflexivity.
  - apply minimal_bytes_leading. exact Hb.
Qed.

Lemma strip_zeros_len (l : bytes) : len (strip_zeros l) <= len l.
Proof.
  induction l as [|b t IH]; [cbn; lia|]. cbn [strip_zeros].
  destruct (Byte.eqb b x00); [rewrite len_cons; lia | lia].
Qed.

Lemma strip_zeros_leading_zero (l : bytes) :
  l <> [] -> leading_byte l = x00 -> len (strip_zeros l) < len l.
Proof.
  destruct l as [|b t]; [congruence|]. intros _. cbn [leading_byte hd]. intros ->.
  cbn [strip_zeros]. change (Byte.eqb x00 x00) with true. cbv iota.
  pose proof (strip_zeros_len t). rewrite len_cons. lia.
Qed.

Lemma strip_zeros_leading_nonzero (l : bytes) :
  leading_byte l <> x00 -> strip_zeros l = l.
Proof.
  destruct l as [|b t]; [reflexivity|]. cbn [leading_byte hd strip_zeros]. intros Hb.
  destruct (Byte.eqb b x00) eqn:E; [|reflexivity].
  apply Byte.byte_dec_bl in E. contradiction.
Qed.

(** The decimal path of [bytes_to_prime_string]: the [try] of line 76 never
    raises, so the handler of line 78 never runs. *)
Lemma bytes_to_prime_string_framed (data : bytes) (filename : str) (full_data : bytes) :
  frame data filename = Ok full_data ->
  bytes_to_prime_string data filename = Ok (decimal (from_bytes full_data)).
Proof.
  intros Hframe. unfold bytes_to_prime_string. rewrite Hframe. cbn [bind].
  unfold int_max_str_digits. rewrite str_of_int_unbounded. cbn [try_except].
  pose proof (from_bytes_range full_data).
  destruct (Z.ltb_spec (from_bytes full_data) 0); [lia|].
  rewrite Z.abs_eq by lia. reflexivity.
Qed.

Lemma bytes_to_prime_string_raises (data : bytes) (filename : str) (e : exn) :
  frame data filename = Raise e -> bytes_to_prime_string data filename = Raise e.
Proof.
  intros Hframe. unfold bytes_to_prime_string. rewrite Hframe. reflexivity.
Qed.

(** Decoding the decimal text of a buffer unframes what is left of the
    buffer after its leading zero bytes. *)
Lemma prime_string_to_bytes_decimal (l : bytes) :
  prime_string_to_bytes (VStr (decimal (from_bytes l))) = unframe (strip_zeros l).
Proof.
  unfold prime_string_to_bytes, int_max_str_digits. cbn [int_of].
  pose proof (from_bytes_range l).
  rewrite int_of_decimal by lia. cbn [bind].
  rewrite minimal_bytes_from_bytes. cbn [bind].
  destruct (unframe_total (strip_zeros l)) as [r E]. rewrite E. reflexivity.
Qed.

Lemma round_trip_framed (data : bytes) (filename : str) (full_data : bytes) :
  frame data filename = Ok full_data ->
  round_trip data filename = unframe (strip_zeros full_data).
Proof.
  intros Hframe. unfold round_trip.
  rewrite (bytes_to_prime_string_framed _ _ _ Hframe). cbn [bind].
  apply prime_string_to_bytes_decimal.
Qed.

Lemma leading_byte_be_bytes_4 (n : Z) (rest : bytes) :
  0 <= n < 256 ^ 4 ->
  (leading_byte (be_bytes 4 n ++ rest) <> x00 <-> 256 ^ 3 <= n).
Proof.
  intros Hn. cbn [be_bytes app leading_byte hd].
  rewrite <- Z_of_byte_zero.
  rewrite Z_of_byte_of_Z by (apply Z.mod_pos_bound; lia).
  change (256 ^ 4) with 4294967296 in Hn. change (256 ^ 3) with 16777216.
  split; intros H; zdm.
Qed.

Lemma frame_len (data : bytes) (filename : str) (full_data : bytes) :
  frame data filename = Ok full_data ->
  len full_data = 8 + utf8_size filename + len data.
Proof.
  intros Hframe. destruct (frame_inv _ _ _ Hframe) as (fb & Hfb & Hf & Hd & ->).
  rewrite framed_len, (encode_utf8_len _ _ Hfb). reflexivity.
Qed.

(** A framed buffer starts with a non-zero byte only under a filename of
    [2 ^ 24] bytes or more, which the strict reading refuses. *)
Lemma leading_nonzero_fallback (data : bytes) (filename : str) (full_data : bytes) :
  frame data filename = Ok full_data ->
  leading_byte full_data <> x00 ->
  256 ^ 3 <= utf8_size filename
  /\ round_trip data filename = Ok (full_data, lit "decoded_file").
Proof.
  intros Hframe Hlead. rewrite (round_trip_framed _ _ _ Hframe).
  rewrite (strip_zeros_leading_nonzero _ Hlead).
  destruct (frame_inv _ _ _ Hframe) as (fb & Hfb & Hf & Hd & ->).
  pose proof (len_nonneg fb).
  apply leading_byte_be_bytes_4 in Hlead; [|lia].
  rewrite <- (encode_utf8_len _ _ Hfb). split; [exact Hlead|].
  apply unframe_fallback. left. rewrite framed_filename_length by assumption.
  change (256 ^ 3) with 16777216 in Hlead. lia.
Qed.

Lemma encode_utf8_inj (s : str) (b1 b2 : bytes) :
  encode_utf8 s = Ok b1 -> encode_utf8 s = Ok b2 -> b1 = b2.
Proof. intros H1 H2. rewrite H1 in H2. injection H2 as <-. reflexivity. Qed.

(** The codec never gives back the payload and the name it was given. *)
Lemma round_trip_never_exact (data : bytes) (filename : str) (full_data : bytes) :
  frame data filename = Ok full_data ->
  round_trip data filename <> Ok (data, filename).
Proof.
  intros Hframe Hrt.
  pose proof (frame_len _ _ _ Hframe) as Hlen.
  pose proof (utf8_size_nonneg filename) as Hsize.
  pose proof (len_nonneg data) as Hdata.
  destruct (Byte.byte_eq_dec (leading_byte full_data) x00) as [Hz|Hnz].
  2:{ destruct (leading_nonzero_fallback _ _ _ Hframe Hnz) as [_ E].
      rewrite E in Hrt. apply Ok_pair_eq in Hrt. destruct Hrt as [Hd _].
      rewrite Hd in Hlen. lia. }
  assert (Hne : full_data <> []).
  { intros ->. change (len (@nil byte)) with 0 in Hlen. lia. }
  pose proof (strip_zeros_leading_zero _ Hne Hz) as Hshort.
  rewrite (round_trip_framed _ _ _ Hframe) in Hrt. unfold unframe in Hrt.
  destruct (frame_inv _ _ _ Hframe) as (fb & Hfb & Hf & Hd & Efull).
  destruct (strict_unframe_spec (strip_zeros full_data))
    as [[E _] | (fn & E & Hdec & Hfl & Hdl & Hfit)];
    rewrite E in Hrt; cbn [bind] in Hrt.
  - (* the fallback: the name is "decoded_file", so the header is not zero *)
    apply Ok_pair_eq in Hrt. destruct Hrt as [Hs Hname].
    assert (Hnum : from_bytes data = from_bytes full_data)
      by (rewrite <- Hs; apply from_bytes_strip_zeros).
    rewrite Efull in Hnum. unfold framed in Hnum.
    rewrite from_bytes_app, from_bytes_be_bytes in Hnum
      by (pose proof (len_nonneg fb); change (Z.of_nat 4) with 4; lia).
    rewrite (encode_utf8_len _ _ Hfb), <- Hname in Hnum.
    change (utf8_size (lit "decoded_file")) with 12 in Hnum.
    rewrite !len_app, len_be_bytes in Hnum.
    pose proof (from_bytes_range data) as Rd.
    pose proof (from_bytes_range (fb ++ be_bytes 4 (len data) ++ data)) as Rr.
    pose proof (len_nonneg fb) as Hfb0.
    assert (Hpow : 256 ^ len data < 256 ^ (len fb + (Z.of_nat 4 + len data)))
      by (apply Z.pow_lt_mono_r; lia).
    nia.
  - (* the strict reading would need the whole framed buffer *)
    apply Ok_pair_eq in Hrt. destruct Hrt as [Hd' Hname]. subst fn.
    apply encode_decode_utf8 in Hdec.
    pose proof (encode_utf8_inj _ _ _ Hfb Hdec) as Efb.
    apply (f_equal len) in Hd', Efb.
    rewrite len_slice in Hd' by lia.
    unfold filename_slice in Efb. rewrite len_slice in Efb by lia.
    rewrite (encode_utf8_len _ _ Hfb) in Efb. lia.
Qed.

Lemma frame_fits (data : bytes) (filename : str) (e : exn) :
  frame data filename = Raise e -> e = UnicodeEncodeError \/ e = OverflowError.
Proof.
  unfold frame.
  assert (Henc : forall s e', encode_utf8 s = Raise e' -> e' = UnicodeEncodeError).
  { clear. induction s as [|c s IH]; intros e'; cbn [encode_utf8]; [discriminate|].
    destruct (utf8_encode_char c); [|intros [= <-]; reflexivity].
    destruct (encode_utf8 s) as [v|e0]; cbn [bind]; [discriminate|].
    intros [= <-]. apply IH. reflexivity. }
  assert (Hto : forall n k e', to_bytes n k = Raise e' -> e' = OverflowError).
  { clear. intros n k e'. unfold to_bytes.
    destruct (n <? 0); [intros [= <-]; reflexivity|].
    destruct (256 ^ k <=? n); [intros [= <-]; reflexivity | discriminate]. }
  destruct (encode_utf8 filename) as [fb|e0] eqn:E0; cbn [bind].
  2:{ intros [= <-]. left. apply (Henc _ _ E0). }
  destruct (to_bytes (len fb) 4) as [h1|e1] eqn:E1; cbn [bind].
  2:{ intros [= <-]. right. apply (Hto _ _ _ E1). }
  destruct (to_bytes (len data) 4) as [h2|e2] eqn:E2; cbn [bind].
  2:{ intros [= <-]. right. apply (Hto _ _ _ E2). }
  discriminate.
Qed.

(** Every non-negative number has a shortest big-endian form. *)
Lemma minimal_bytes_total (n : Z) : 0 <= n -> exists l, minimal_bytes n = Ok l.
Proof.
  intros Hn.
  assert (Hfit : 0 <= n < 256 ^ Z.of_nat (Z.to_nat n)).
  { split; [assumption|]. rewrite Z2Nat.id by assumption.
    apply Z.pow_gt_lin_r; lia. }
  rewrite <- (from_bytes_be_bytes _ _ Hfit), minimal_bytes_from_bytes. eauto.
Qed.

Lemma minimal_bytes_negative (n : Z) : n < 0 -> minimal_bytes n = Raise OverflowError.
Proof.
  intros Hn. unfold minimal_bytes, to_bytes.
  destruct (Z.ltb_spec n 0); [reflexivity | lia].
Qed.

Lemma encode_utf8_repeat_a (n : nat) :
  encode_utf8 (repeat 97 n) = Ok (repeat "a"%byte n).
Proof.
  induction n as [|n IH]; [reflexivity|].
  cbn [repeat encode_utf8]. change (utf8_encode_char 97) with (Some ["a"%byte]).
  cbv iota. rewrite IH. reflexivity.
Qed.

(** A name of [n] letters [a], [2 ^ 24 <= n < 2 ^ 32], frames into a buffer
    that starts with a non-zero byte. *)
Lemma long_name_frame (n : Z) :
  256 ^ 3 <= n < 256 ^ 4 ->
  exists full_data,
    frame [] (repeat 97 (Z.to_nat n)) = Ok full_data
    /\ leading_byte full_data <> x00.
Proof.
  intros Hn.
  assert (H0 : 0 <= n) by (change (256 ^ 3) with 16777216 in Hn; lia).
  pose proof (len_repeat "a"%byte n H0) as Hlen.
  eexists. split.
  - apply frame_ok with (filename_bytes := repeat "a"%byte (Z.to_nat n)).
    + apply encode_utf8_repeat_a.
    + rewrite Hlen. lia.
    + reflexivity.
  - unfold framed. rewrite Hlen. apply leading_byte_be_bytes_4; lia.
Qed.

(** The payload ["A"] under the name ["a"]: the framed buffer, its decimal
    text, and what decoding that text returns. *)
Example frame_A_a :
  frame ["A"%byte] (lit "a")
  = Ok [x00; x00; x00; x01; "a"; x00; x00; x00; x01; "A"]%byte.
Proof. reflexivity. Qed.

Example bytes_to_prime_string_A_a :
  bytes_to_prime_string ["A"%byte] (lit "a") = Ok (lit "388127604605249").
Proof. reflexivity. Qed.

Example prime_string_to_bytes_A_a :
  prime_string_to_bytes (VStr (lit "388127604605249"))
  = Ok ([x01; "a"; x00; x00; x00; x01; "A"]%byte, lit "decoded_file").
Proof. reflexivity. Qed.

(** *** The claims on the big-integer codec *)

(** C1, as amended. For every payload and filename that frame into a
    buffer: the bytes the decoder rebuilds from the number are the framed
    buffer, bit for bit, if and only if the buffer starts with a non-zero
    byte; in that case the filename takes [2 ^ 24] bytes or more, above the
    bound of 500, and decoding what encode wrote returns the whole framed
    buffer under the name ["decoded_file"]; when the leading byte is zero the
    decoder rebuilds a shorter buffer; and in no case does decoding what
    encode wrote return exactly the payload and the filename. *)
Theorem C1_round_trip_and_leading_byte (data : bytes) (filename : str)
  (full_data : bytes) (Hframe : frame data filename = Ok full_data) :
  (minimal_bytes (from_bytes full_data) = Ok full_data
   <-> leading_byte full_data <> x00)
  /\ (leading_byte full_data <> x00 ->
      256 ^ 3 <= utf8_size filename
      /\ round_trip data filename = Ok (full_data, lit "decoded_file"))
  /\ (leading_byte full_data = x00 ->
      exists kept, minimal_bytes (from_bytes full_data) = Ok kept
                   /\ len kept < len full_data)
  /\ round_trip data filename <> Ok (data, filename).
Proof.
  assert (Hne : full_data <> []).
  { intros ->. pose proof (frame_len _ _ _ Hframe) as Hlen.
    pose proof (utf8_size_nonneg filename). pose proof (len_nonneg data).
    change (len (@nil byte)) with 0 in Hlen. lia. }
  rewrite minimal_bytes_from_bytes.
  split; [|split; [|split]].
  - split.
    + intros E Hz. apply Ok_eq in E.
      pose proof (strip_zeros_leading_zero _ Hne Hz) as Hshort.
      rewrite E in Hshort. lia.
    + intros Hnz. rewrite (strip_zeros_leading_nonzero _ Hnz). reflexivity.
  - intros Hnz. exact (leading_nonzero_fallback _ _ _ Hframe Hnz).
  - intros Hz. exists (strip_zeros full_data). split; [reflexivity|].
    exact (strip_zeros_leading_zero _ Hne Hz).
  - exact (round_trip_never_exact _ _ _ Hframe).
Qed.

(** C1, a witness: the payload ["A"] under the name ["a"]. *)
Lemma C1_round_trip_and_leading_byte_witness :
  (minimal_bytes (from_bytes [x00; x00; x00; x01; "a"; x00; x00; x00; x01; "A"]%byte)
   = Ok [x00; x00; x00; x01; "a"; x00; x00; x00; x01; "A"]%byte
   <-> leading_byte [x00; x00; x00; x01; "a"; x00; x00; x00; x01; "A"]%byte <> x00)
  /\ (leading_byte [x00; x00; x00; x01; "a"; x00; x00; x00; x01; "A"]%byte <> x00 ->
      256 ^ 3 <= utf8_size (lit "a")
      /\ round_trip ["A"%byte] (lit "a")
         = Ok ([x00; x00; x00; x01; "a"; x00; x00; x00; x01; "A"]%byte,
               lit "decoded_file"))
  /\ (leading_byte [x00; x00; x00; x01; "a"; x00; x00; x00; x01; "A"]%byte = x00 ->
      exists kept,
        minimal_bytes (from_bytes [x00; x00; x00; x01; "a"; x00; x00; x00; x01; "A"]%byte)
        = Ok kept
        /\ len kept < len [x00; x00; x00; x01; "a"; x00; x00; x00; x01; "A"]%byte)
  /\ round_trip ["A"%byte] (lit "a") <> Ok (["A"%byte], lit "a").
Proof.
  apply (C1_round_trip_and_leading_byte ["A"%byte] (lit "a")).
  vm_compute. reflexivity.
Defined.

(** C1, where the claim as first stated fails: under a filename of
    [2 ^ 24] letters [a] the framed buffer of the empty payload starts with
    the byte [0x01], and decoding what encode wrote does not return the
    payload and the filename. *)
Lemma C1_long_filename_not_recovered :
  ~ exact_iff_leading_nonzero [] (repeat 97 (Z.to_nat 16777216)).
Proof.
  assert (Hn : 256 ^ 3 <= 16777216 < 256 ^ 4).
  { split; [intros H; discriminate H | reflexivity]. }
  destruct (long_name_frame 16777216 Hn) as (full_data & Hframe & Hlead).
  clear Hn. intros Hiff. destruct Hiff as [_ Hback].
  exact (round_trip_never_exact _ _ _ Hframe
           (Hback (ex_intro _ full_data (conj Hframe Hlead)))).
Qed.

(** C2, as amended. For every input string, decode attempts the base-10
    parse only: it fails, with the [HTTPException] of line 127, exactly when
    the string is not the base-10 numeral of a non-negative integer, and the
    numerals of base 16 play no part. *)
Theorem C2_decode_parses_base_10_only (prime_str : str) :
  (raises (prime_string_to_bytes (VStr prime_str))
   <-> ~ exists n, int_of_str int_max_str_digits 10 prime_str = Ok n /\ 0 <= n)
  /\ (forall e, prime_string_to_bytes (VStr prime_str) = Raise e ->
                e = HTTPException 400 "Invalid prime string: ").
Proof.
  unfold prime_string_to_bytes. cbn [int_of].
  destruct (int_of_str int_max_str_digits 10 prime_str) as [n|e0] eqn:Eint;
    cbn [bind try_except].
  2:{ split.
      - split; [|intros _; exact I].
        intros _ (n & Hn & _). discriminate.
      - intros e [= <-]. reflexivity. }
  destruct (Z.lt_ge_cases n 0) as [Hneg|Hpos].
  - rewrite (minimal_bytes_negative _ Hneg). cbn [bind try_except]. split.
    + split; [|intros _; exact I].
      intros _ (m & Hm & Hm0). apply Ok_eq in Hm. lia.
    + intros e [= <-]. reflexivity.
  - destruct (minimal_bytes_total n Hpos) as [l El]. rewrite El. cbn [bind].
    destruct (unframe_total l) as [r Er]. rewrite Er. cbn [try_except]. split.
    + split; [intros []|]. intros Hno. apply Hno. exists n. split; [reflexivity|lia].
    + intros e. discriminate.
Qed.

(** C2, where the claim as first stated fails: ["ff"] is a numeral of base
    16, and decode fails on it. *)
Lemma C2_hex_numeral_rejected : ~ fails_iff_no_numeral (lit "ff").
Proof.
  intros [Hfail _].
  assert (R : raises (prime_string_to_bytes (VStr (lit "ff")))) by exact I.
  destruct (Hfail R) as [_ H16]. apply H16. exists 255. reflexivity.
Qed.

Lemma encode_utf8_no_surrogate (s : str) (bs : bytes) :
  encode_utf8 s = Ok bs -> no_surrogate s.
Proof.
  revert bs. induction s as [|c s IH]; intros bs; [constructor|].
  cbn [encode_utf8]. destruct (utf8_encode_char c) as [cb|] eqn:Ec; [|discriminate].
  intros H. apply bind_ok in H. destruct H as (rest & Hrest & _).
  constructor; [|exact (IH _ Hrest)].
  unfold utf8_encode_char in Ec. unfold surrogate.
  destruct (Z.ltb_spec c 0); [discriminate|].
  destruct (Z.ltb_spec c 0x80); [destruct (Z.leb_spec 0xD800 c); [lia | reflexivity]|].
  destruct (Z.ltb_spec c 0x800); [destruct (Z.leb_spec 0xD800 c); [lia | reflexivity]|].
  destruct (Z.ltb_spec c 0x10000).
  - fold (surrogate c). destruct (surrogate c); [discriminate | reflexivity].
  - destruct (Z.leb_spec c 0xDFFF); [lia|]. apply andb_false_r.
Qed.

Lemma encode_utf8_raises (s : str) (e : exn) :
  encode_utf8 s = Raise e -> e = UnicodeEncodeError.
Proof.
  revert e. induction s as [|c s IH]; intros e; cbn [encode_utf8]; [discriminate|].
  destruct (utf8_encode_char c); [|intros H; apply Raise_eq in H; congruence].
  destruct (encode_utf8 s) as [v|e0]; cbn [bind]; [discriminate|].
  intros H. apply Raise_eq in H. subst e0. apply IH. reflexivity.
Qed.

Lemma frame_surrogate (data : bytes) (filename : str) :
  ~ no_surrogate filename -> frame data filename = Raise UnicodeEncodeError.
Proof.
  intros Hsur. unfold frame.
  destruct (encode_utf8 filename) as [fb|e] eqn:E.
  - exfalso. apply Hsur. exact (encode_utf8_no_surrogate _ _ E).
  - rewrite (encode_utf8_raises _ _ E). reflexivity.
Qed.

Lemma frame_too_long (data : bytes) (filename : str) :
  well_formed filename -> no_surrogate filename ->
  256 ^ 4 <= utf8_size filename \/ 256 ^ 4 <= len data ->
  frame data filename = Raise OverflowError.
Proof.
  intros Hw Hn Hlong. unfold frame.
  destruct (encode_utf8_ok filename Hw Hn) as [fb Hfb]. rewrite Hfb. cbn [bind].
  rewrite <- (encode_utf8_len _ _ Hfb) in Hlong.
  pose proof (len_nonneg fb). pose proof (len_nonneg data).
  unfold to_bytes.
  destruct (Z.ltb_spec (len fb) 0); [lia|].
  destruct (Z.leb_spec (256 ^ 4) (len fb)); [reflexivity|]. cbn [bind].
  destruct (Z.ltb_spec (len data) 0); [lia|].
  destruct (Z.leb_spec (256 ^ 4) (len data)); [reflexivity | lia].
Qed.

(** C10, as amended. For every payload of fewer than [2 ^ 32] bytes and
    every filename without an unpaired surrogate whose UTF-8 form takes
    fewer than [2 ^ 32] bytes, encode succeeds and returns the base-10 text of the
    framed buffer's big-endian integer. Otherwise it fails before it renders
    a number: with [UnicodeEncodeError] on a filename that holds a
    surrogate, and with [OverflowError] when the filename holds none and
    its UTF-8 form or the payload takes [2 ^ 32] bytes or more. With the
    digit limit lifted at startup, rendering a number never raises, and for
    no payload and filename at all does encode end in the [AttributeError]
    of the hex-fallback handler: that branch is unreachable. *)
Theorem C10_encode_takes_decimal_path (data : bytes) (filename : str)
  (Hstr : well_formed filename) :
  (no_surrogate filename -> utf8_size filename < 2 ^ 32 -> len data < 2 ^ 32 ->
   exists full_data,
     frame data filename = Ok full_data
     /\ bytes_to_prime_string data filename = Ok (decimal (from_bytes full_data)))
  /\ (~ no_surrogate filename ->
      bytes_to_prime_string data filename = Raise UnicodeEncodeError)
  /\ (no_surrogate filename ->
      2 ^ 32 <= utf8_size filename \/ 2 ^ 32 <= len data ->
      bytes_to_prime_string data filename = Raise OverflowError)
  /\ (forall n, exists s, str_of_int int_max_str_digits n = Ok s)
  /\ (forall data' filename',
        bytes_to_prime_string data' filename' <> Raise AttributeError).
Proof.
  split; [|split; [|split; [|split]]].
  - intros Hsur Hname Hdata.
    destruct (frame_total data filename Hstr Hsur) as [full_data Hframe].
    + change (256 ^ 4) with (2 ^ 32). exact Hname.
    + change (256 ^ 4) with (2 ^ 32). exact Hdata.
    + exists full_data. split; [exact Hframe|].
      apply bytes_to_prime_string_framed. exact Hframe.
  - intros Hsur. apply bytes_to_prime_string_raises. apply frame_surrogate. exact Hsur.
  - intros Hsur Hlong. apply bytes_to_prime_string_raises.
    apply frame_too_long; [exact Hstr | exact Hsur|].
    change (256 ^ 4) with (2 ^ 32). exact Hlong.
  - intros n. unfold int_max_str_digits. rewrite str_of_int_unbounded. eauto.
  - intros data' filename' Habs.
    destruct (frame data' filename') as [full_data|e] eqn:Hframe.
    + rewrite (bytes_to_prime_string_framed _ _ _ Hframe) in Habs. discriminate.
    + rewrite (bytes_to_prime_string_raises _ _ _ Hframe) in Habs.
      apply Raise_eq in Habs. subst e.
      destruct (frame_fits _ _ _ Hframe); discriminate.
Qed.

(** C10, a witness: the payload ["A"] under the name ["a"], which encode
    accepts. *)
Lemma C10_encode_takes_decimal_path_witness :
  (exists full_data,
     frame ["A"%byte] (lit "a") = Ok full_data
     /\ bytes_to_prime_string ["A"%byte] (lit "a") = Ok (decimal (from_bytes full_data)))
  /\ (forall n, exists s, str_of_int int_max_str_digits n = Ok s)
  /\ (forall data' filename',
        bytes_to_prime_string data' filename' <> Raise AttributeError).
Proof.
  assert (Hstr : well_formed (lit "a")) by (repeat constructor; vm_compute; discriminate).
  destruct (C10_encode_takes_decimal_path ["A"%byte] (lit "a") Hstr)
    as (Hok & _ & _ & Hrender & Hbranch).
  split; [|split; [exact Hrender | exact Hbranch]].
  apply Hok; [repeat constructor | vm_compute; reflexivity | vm_compute; reflexivity].
Defined.

(** C10, where the claim as first stated fails: the filename made of the
    lone surrogate [U+D800] is a Python [str], and encode raises
    [UnicodeEncodeError] on it. *)
Lemma C10_surrogate_filename_raises : ~ encode_total.
Proof.
  intros Htotal.
  destruct (Htotal [] [0xD800]) as [s Hs].
  - repeat constructor; vm_compute; discriminate.
  - vm_compute in Hs. discriminate.
Qed.

End Prime.

(** * The MIDI note codec *)

Module Midi.
Import Py Main Spec PyFacts.

Lemma max_min_clamp (x lo hi : Z) : lo <= hi -> Z.max lo (Z.min hi x) = clamp x lo hi.
Proof.
  intros H. unfold clamp.
  destruct (Z.ltb_spec x lo); destruct (Z.ltb_spec hi x); lia.
Qed.

Lemma min_max_clamp (x lo hi : Z) : lo <= hi -> Z.min hi (Z.max lo x) = clamp x lo hi.
Proof.
  intros H. unfold clamp.
  destruct (Z.ltb_spec x lo); destruct (Z.ltb_spec hi x); lia.
Qed.

Lemma encode_byte_events (i : nat) (b : byte) (track : MidiTrack) :
  encode_byte (Z.of_nat i) b track = track ++ events_of i b.
Proof.
  unfold encode_byte, events_of, note_of, velocity_of, unit_time.
  rewrite max_min_clamp by lia. rewrite <- app_assoc. cbn [app].
  destruct i as [|i]; [reflexivity|].
  destruct (Z.ltb_spec 0 (Z.of_nat (S i))); [reflexivity | lia].
Qed.

(** The loop of [encode_to_midi] appends, byte after byte, the events the
    specification gives. *)
Lemma encode_loop_events (content : bytes) :
  forall (i : nat) (track : MidiTrack),
    encode_loop (Z.of_nat i) content track = track ++ events_from i content.
Proof.
  induction content as [|b rest IH]; intros i track; cbn [encode_loop events_from].
  - symmetry. apply app_nil_r.
  - rewrite encode_byte_events.
    replace (Z.of_nat i + 1) with (Z.of_nat (S i)) by lia.
    rewrite IH, <- app_assoc. reflexivity.
Qed.

Lemma decode_message_event (msg : Message) (original_bytes : bytes) :
  decode_message msg original_bytes = original_bytes ++ bytes_of_events [msg].
Proof.
  destruct msg as [ch note velocity t | | |]; cbn [decode_message bytes_of_events];
    try (symmetry; apply app_nil_r).
  unfold byte_of_event. rewrite min_max_clamp by lia. reflexivity.
Qed.

Lemma bytes_of_events_cons (msg : Message) (track : MidiTrack) :
  bytes_of_events (msg :: track) = bytes_of_events [msg] ++ bytes_of_events track.
Proof. destruct msg; reflexivity. Qed.

(** The loop of [decode_from_midi] appends the byte of each note-on. *)
Lemma decode_loop_events (track : MidiTrack) :
  forall original_bytes : bytes,
    decode_loop track original_bytes = original_bytes ++ bytes_of_events track.
Proof.
  induction track as [|msg rest IH]; intros original_bytes; cbn [decode_loop].
  - symmetry. apply app_nil_r.
  - rewrite IH, decode_message_event, (bytes_of_events_cons msg rest), app_assoc.
    reflexivity.
Qed.

Lemma velocity_of_byte (b : byte) :
  velocity_of (Z_of_byte b) = 40 + Z.shiftr (Z_of_byte b) 2
  /\ 40 <= velocity_of (Z_of_byte b) <= 103.
Proof.
  unfold velocity_of, clamp. pose proof (Z_of_byte_range b) as R.
  rewrite Z.shiftr_div_pow2 by lia. change (2 ^ 2) with 4.
  destruct (Z.ltb_spec (40 + Z_of_byte b / 4) 40); [zdm|].
  destruct (Z.ltb_spec 127 (40 + Z_of_byte b / 4)); zdm.
Qed.

Lemma events_in_range (content : bytes) (i : nat) : Forall in_range (events_from i content).
Proof.
  revert i. induction content as [|b rest IH]; intros i; cbn [events_from].
  - constructor.
  - pose proof (velocity_of_byte b) as [_ Hv]. pose proof (Z_of_byte_range b) as R.
    assert (Hn : 0 <= note_of (Z_of_byte b) <= 127) by (unfold note_of; zdm).
    assert (Ht : 0 <= delta_time i) by (destruct i; cbn; unfold unit_time; lia).
    unfold events_of. cbn [app].
    constructor; [cbn [in_range]; lia|].
    constructor; [cbn [in_range]; unfold unit_time; lia|]. apply IH.
Qed.

(** *** The claims on the note codec *)

(** C6. For every input byte [b] at index [i], encode emits a note-on event
    with [note = 48 + (b mod 64)], [velocity = clamp(40 + (b >> 2), 40, 127)]
    and a delta time of 0 for the first byte and of a fixed unit otherwise,
    followed by the matched note-off; these events are the first track of
    the file that lines 188-204 build, in either mode. For every note-on
    event of the first track, and for these only, decode computes
    [byte = (((note - 48) mod 64) + clamp((velocity - 40) << 2, 0, 192)) mod 256]. *)
Theorem C6_note_codec_formulas
  (sha256_hexdigest : bytes -> str) (MidiFile_read : bytes -> result MidiFile)
  (content : bytes) (mode : str) (track : MidiTrack)
  (carrier_head : byte) (carrier : bytes) :
  encode_loop 0 content [] = events_from 0 content
  /\ Forall in_range (events_from 0 content)
  /\ nth_error (mid_of content mode) 0 = Some (events_from 0 content)
  /\ decode_loop track [] = bytes_of_events track
  /\ decode_from_midi sha256_hexdigest MidiFile_read (carrier_head :: carrier)
     = match MidiFile_read (carrier_head :: carrier) with
       | Ok (first :: _) =>
           Ok {| body := bytes_of_events first;
                 decoded_hash := sha256_hexdigest (bytes_of_events first) |}
       | _ => Raise (HTTPException 400 "Could not decode MIDI: ")
       end.
Proof.
  assert (Henc : forall c, encode_loop 0 c [] = events_from 0 c).
  { intros c. change 0 with (Z.of_nat 0). rewrite encode_loop_events. reflexivity. }
  split; [apply Henc|]. split; [apply events_in_range|]. split; [|split].
  - unfold mid_of. rewrite Henc.
    destruct (str_eqb mode (lit "musical")); reflexivity.
  - rewrite decode_loop_events. reflexivity.
  - unfold decode_from_midi, calculate_hash. cbn [is_empty].
    destruct (MidiFile_read (carrier_head :: carrier)) as [[|first rest]|e];
      cbn [bind try_except is_Exception]; try reflexivity.
    rewrite decode_loop_events. reflexivity.
Qed.

(** C3, the byte [0x04]: the encoder does not clamp the velocity of any
    byte ([40 + (b >> 2)] stays within [40 .. 103]), yet the round trip
    through the note-on event gives [0x08] for [0x04]. A byte comes back
    exactly when [b mod 64 < 4] or [b >= 192]: [0x00] and [0xFF] do. *)
Theorem C3_note_round_trip_loses_byte_4 (b : byte) :
  velocity_of (Z_of_byte b) = 40 + Z.shiftr (Z_of_byte b) 2
  /\ encode_loop 0 [x04] [] = [NoteOn 0 52 41 0; NoteOff 0 52 41 120]
  /\ note_round_trip x04 = [x08]
  /\ note_round_trip x00 = [x00]
  /\ note_round_trip xff = [xff]
  /\ recovered b = (Z_of_byte b mod 64 <? 4) || (192 <=? Z_of_byte b).
Proof.
  split; [apply velocity_of_byte|].
  split; [reflexivity|]. split; [reflexivity|].
  split; [reflexivity|]. split; [reflexivity|].
  destruct b; vm_compute; reflexivity.
Qed.

End Midi.

(** * The verifier *)

Module Verifier.
Import Py Main Spec PyFacts.

Lemma str_eqb_eq (s t : str) : str_eqb s t = true <-> s = t.
Proof.
  revert t. induction s as [|c s IH]; intros [|d t]; cbn [str_eqb];
    try (split; [discriminate | congruence]); [tauto|].
  rewrite andb_true_iff, Z.eqb_eq, IH. split.
  - intros [-> ->]. reflexivity.
  - intros [= -> ->]. split; reflexivity.
Qed.




(** *** The claim on the verifier *)


End Verifier.

(** * The endpoints *)

Module Endpoints.
Import Py Main Spec PyFacts.

Section Guards.

Variable sha256_hexdigest : bytes -> str.
Variable b64encode : bytes -> str.
Variable b64decode : str -> result bytes.
Variable MidiFile_read : bytes -> result MidiFile.
Variable render_qr_png : QRData -> result bytes.
Variable scan_image : bytes -> result (list bytes).
Variable json_loads : str -> result value.

Lemma try_except_Exception {A : Type} (body : result A) (e e' : exn) :
  try_except body is_Exception (fun _ => Raise e) = Raise e' -> e' = e.
Proof.
  destruct body as [v|e0]; cbn [try_except is_Exception]; congruence.
Qed.

(** Whatever [decode_from_qr] raises is the exception of line 412. *)
Lemma decode_from_qr_raises (image_data : str) (e : exn) :
  decode_from_qr sha256_hexdigest b64decode scan_image json_loads image_data = Raise e ->
  e = HTTPException 400 "Could not decode QR: ".
Proof. unfold decode_from_qr. apply try_except_Exception. Qed.

(** *** The claims on the endpoints *)

(** C8. For every payload whose raw byte length exceeds 500 KiB
    ([500 * 1024] bytes), and for these payloads only, QR encode fails with
    the "File too large" exception; it does so whatever the hash, the base64
    codec and the renderer are, that is before the record is built or an
    image rendered. So this check does not fail on a non-empty payload of
    at most 500 KiB, and encoding a payload of 600 KiB fails with it. *)
Theorem C8_qr_size_ceiling (content : bytes) (file_filename : option str) :
  (encode_to_qr sha256_hexdigest b64encode render_qr_png content file_filename
   = Raise (HTTPException 400 "File too large for QR encoding (max 500KB)")
   <-> 500 * 1024 < len content)
  /\ encode_to_qr sha256_hexdigest b64encode render_qr_png
       (repeat x00 (Z.to_nat (600 * 1024))) file_filename
     = Raise (HTTPException 400 "File too large for QR encoding (max 500KB)").
Proof.
  assert (Hguard : forall c : bytes,
            500 * 1024 < len c ->
            encode_to_qr sha256_hexdigest b64encode render_qr_png c file_filename
            = Raise (HTTPException 400 "File too large for QR encoding (max 500KB)")).
  { intros c Hc. unfold encode_to_qr.
    destruct c as [|b c]; [cbn in Hc; lia|]. cbn [is_empty].
    destruct (Z.ltb_spec (500 * 1024) (len (b :: c))); [reflexivity | lia]. }
  split.
  - split; [|apply Hguard].
    unfold encode_to_qr. destruct content as [|b content]; cbn [is_empty].
    + discriminate.
    + destruct (Z.ltb_spec (500 * 1024) (len (b :: content))); [intros _; assumption|].
      intros Heq. apply try_except_Exception in Heq. discriminate.
  - apply Hguard. rewrite len_repeat by lia. lia.
Qed.

(** C9. An empty upload is refused with "File is empty" before any codec
    logic by the four endpoints that read an upload (MIDI encode and
    decode, prime encode, QR encode), and an empty prime string with
    "Missing prime_string" by prime decode. QR decode has no such check:
    on empty image data, which base64 decodes to no bytes and in which the
    image library finds no image, it runs the decoder and reports
    "Could not decode QR"; it never reports "File is empty". *)
Theorem C9_empty_input_guards (mode : str) (file_filename : option str) (e : exn)
  (Hb64 : b64decode [] = Ok []) (Hscan : scan_image [] = Raise e) :
  encode_to_midi sha256_hexdigest [] mode = Raise (HTTPException 400 "File is empty")
  /\ decode_from_midi sha256_hexdigest MidiFile_read []
     = Raise (HTTPException 400 "File is empty")
  /\ encode_to_prime sha256_hexdigest [] file_filename
     = Raise (HTTPException 400 "File is empty")
  /\ encode_to_qr sha256_hexdigest b64encode render_qr_png [] file_filename
     = Raise (HTTPException 400 "File is empty")
  /\ decode_from_prime sha256_hexdigest [(lit "prime_string", VStr [])]
     = Raise (HTTPException 400 "Missing prime_string")
  /\ decode_from_qr sha256_hexdigest b64decode scan_image json_loads []
     = Raise (HTTPException 400 "Could not decode QR: ")
  /\ (forall image_data,
        decode_from_qr sha256_hexdigest b64decode scan_image json_loads image_data
        <> Raise (HTTPException 400 "File is empty")).
Proof.
  repeat (split; [reflexivity|]). split.
  - unfold decode_from_qr, image_text. cbn [existsb].
    rewrite Hb64. cbn [bind]. rewrite Hscan. reflexivity.
  - intros image_data Heq. apply decode_from_qr_raises in Heq. discriminate.
Qed.

End Guards.

(** C9, a witness: a base64 decoder that gives no bytes for the empty text
    and an image reader that finds no image in no bytes. *)
Lemma C9_empty_input_guards_witness :
  encode_to_midi (fun _ => []) [] (lit "raw") = Raise (HTTPException 400 "File is empty")
  /\ decode_from_midi (fun _ => []) (fun _ => Raise (LibraryError "EOFError")) []
     = Raise (HTTPException 400 "File is empty")
  /\ encode_to_prime (fun _ => []) [] None = Raise (HTTPException 400 "File is empty")
  /\ encode_to_qr (fun _ => []) (fun _ => []) (fun _ => Raise (LibraryError "DataOverflowError"))
       [] None
     = Raise (HTTPException 400 "File is empty")
  /\ decode_from_prime (fun _ => []) [(lit "prime_string", VStr [])]
     = Raise (HTTPException 400 "Missing prime_string")
  /\ decode_from_qr (fun _ => []) (fun _ => Ok [])
       (fun _ => Raise (LibraryError "UnidentifiedImageError"))
       (fun _ => Raise (LibraryError "JSONDecodeError")) []
     = Raise (HTTPException 400 "Could not decode QR: ")
  /\ (forall image_data,
        decode_from_qr (fun _ => []) (fun _ => Ok [])
          (fun _ => Raise (LibraryError "UnidentifiedImageError"))
          (fun _ => Raise (LibraryError "JSONDecodeError")) image_data
        <> Raise (HTTPException 400 "File is empty")).
Proof.
  apply (C9_empty_input_guards (fun _ => []) (fun _ => []) (fun _ => Ok [])
           (fun _ => Raise (LibraryError "EOFError"))
           (fun _ => Raise (LibraryError "DataOverflowError"))
           (fun _ => Raise (LibraryError "UnidentifiedImageError"))
           (fun _ => Raise (LibraryError "JSONDecodeError"))
           (lit "raw") None (LibraryError "UnidentifiedImageError")).
  - reflexivity.
  - reflexivity.
Defined.

End Endpoints.

(** * More on the big-integer codec *)

Module PrimeCodec.
Import Py Main Spec PyFacts Framing Prime.

Lemma minimal_bytes_shortest (n : Z) : 0 <= n -> minimal_bytes n = Ok (shortest_bytes n).
Proof.
  intros Hn. destruct (minimal_bytes_total n Hn) as [l El].
  unfold minimal_bytes, to_bytes in *. unfold shortest_bytes.
  destruct (n <? 0); [discriminate|].
  destruct (256 ^ ((bit_length n + 7) / 8) <=? n); [discriminate | reflexivity].
Qed.

Lemma shortest_bytes_shape (n : Z) :
  0 <= n -> shortest_bytes n = [] \/ exists b t, shortest_bytes n = b :: t /\ b <> x00.
Proof.
  intros Hn.
  assert (Hfit : 0 <= n < 256 ^ Z.of_nat (Z.to_nat n)).
  { split; [assumption|]. rewrite Z2Nat.id by assumption. apply Z.pow_gt_lin_r; lia. }
  pose proof (minimal_bytes_shortest n Hn) as E.
  rewrite <- (from_bytes_be_bytes _ _ Hfit), minimal_bytes_from_bytes in E at 1.
  apply Ok_eq in E. rewrite <- E. apply strip_zeros_shape.
Qed.

(** A buffer of four bytes or more that starts with a non-zero byte
    announces a filename of [2 ^ 24] bytes or more. *)
Lemma filename_length_leading (b : byte) (t : bytes) :
  b <> x00 -> 4 <= len (b :: t) -> 256 ^ 3 <= filename_length (b :: t).
Proof.
  intros Hb Hlen.
  destruct t as [|b1 [|b2 [|b3 t]]]; try (cbn in Hlen; lia).
  unfold filename_length.
  change (slice (b :: b1 :: b2 :: b3 :: t) 0 4) with [b; b1; b2; b3].
  rewrite from_bytes_cons. change (len [b1; b2; b3]) with 3.
  pose proof (from_bytes_range [b1; b2; b3]) as R.
  pose proof (Z_of_byte_range b) as Rb.
  destruct (Z.eq_dec (Z_of_byte b) 0) as [E|E];
    [apply Z_of_byte_zero in E; contradiction|].
  change (256 ^ 3) with 16777216. lia.
Qed.

(** The strict reading never succeeds on a buffer without a leading zero. *)
Lemma strict_unframe_no_leading_zero (l : bytes) :
  l = [] \/ (exists b t, l = b :: t /\ b <> x00) -> strict_unframe l = Ok None.
Proof.
  intros [-> | (b & t & -> & Hb)]; [reflexivity|].
  destruct (strict_unframe_spec (b :: t)) as [[E _] | (fn & _ & _ & Hfl & Hdl & Hfit)];
    [exact E|].
  exfalso. pose proof (filename_length_leading b t Hb) as Hlead.
  change (256 ^ 3) with 16777216 in Hlead. lia.
Qed.

Lemma unframe_shortest (n : Z) :
  0 <= n -> unframe (shortest_bytes n) = Ok (shortest_bytes n, lit "decoded_file").
Proof.
  intros Hn. unfold unframe.
  rewrite (strict_unframe_no_leading_zero _ (shortest_bytes_shape n Hn)). reflexivity.
Qed.

Lemma prime_string_to_bytes_cases (prime_str : value) :
  prime_string_to_bytes prime_str
  = match int_of int_max_str_digits prime_str with
    | Ok n =>
        if n <? 0 then Raise (HTTPException 400 "Invalid prime string: ")
        else Ok (shortest_bytes n, lit "decoded_file")
    | Raise _ => Raise (HTTPException 400 "Invalid prime string: ")
    end.
Proof.
  unfold prime_string_to_bytes.
  destruct (int_of int_max_str_digits prime_str) as [n|e];
    cbn [bind try_except is_Exception]; [|reflexivity].
  destruct (Z.ltb_spec n 0) as [Hneg|Hpos].
  - rewrite (minimal_bytes_negative _ Hneg). reflexivity.
  - rewrite (minimal_bytes_shortest _ Hpos). cbn [bind].
    rewrite (unframe_shortest _ Hpos). reflexivity.
Qed.

(** X1. [prime_string_to_bytes] never reads a header: the bytes rebuilt from
    the number never start with a zero byte, so the four bytes read as the
    filename length announce [2 ^ 24] bytes or more and the bound of 500
    sends every buffer to the fallback. On an argument that [int] converts
    to a number [n >= 0] (for a [str], the base-10 numerals that [int]
    reads, in ASCII digits or those of another script) it returns the
    shortest big-endian bytes of [n] under the name ["decoded_file"]; on
    anything else it raises the exception of line 127. So the text of the
    Arabic-Indic digits one, two, three decodes to the byte 123, and a five
    between a no-break space and an em space to the byte 5. *)
Theorem prime_decode_always_falls_back (prime_str : value) :
  prime_string_to_bytes prime_str
  = match int_of int_max_str_digits prime_str with
    | Ok n =>
        if n <? 0 then Raise (HTTPException 400 "Invalid prime string: ")
        else Ok (shortest_bytes n, lit "decoded_file")
    | Raise _ => Raise (HTTPException 400 "Invalid prime string: ")
    end
  /\ prime_string_to_bytes (VStr [0x661; 0x662; 0x663])
     = Ok (["{"%byte], lit "decoded_file")
  /\ prime_string_to_bytes (VStr [0xA0; 53; 0x2003]) = Ok ([x05], lit "decoded_file")
  /\ (forall r, prime_string_to_bytes prime_str = Ok r ->
                snd r = lit "decoded_file"
                /\ strict_unframe (fst r) = Ok None
                /\ (fst r = [] \/ leading_byte (fst r) <> x00)).
Proof.
  split; [apply prime_string_to_bytes_cases|].
  split; [reflexivity|]. split; [reflexivity|].
  intros r. rewrite prime_string_to_bytes_cases.
  destruct (int_of int_max_str_digits prime_str) as [n|e]; [|discriminate].
  destruct (Z.ltb_spec n 0) as [Hneg|Hpos]; [discriminate|].
  intros E. apply Ok_eq in E. subst r. cbn [fst snd].
  pose proof (shortest_bytes_shape n Hpos) as Hshape.
  split; [reflexivity|]. split.
  - apply strict_unframe_no_leading_zero. exact Hshape.
  - destruct Hshape as [E0 | (b & t & E1 & Hb)]; [left; exact E0|].
    right. rewrite E1. exact Hb.
Qed.

Lemma strip_zeros_app (h d : bytes) :
  strip_zeros h <> [] -> strip_zeros (h ++ d) = strip_zeros h ++ d.
Proof.
  induction h as [|b h IH]; cbn [strip_zeros app]; [congruence|].
  destruct (Byte.eqb b x00); [exact IH | reflexivity].
Qed.

Lemma len_zero_nil {A : Type} (l : list A) : len l = 0 -> l = [].
Proof. destruct l; [reflexivity | rewrite len_cons; pose proof (len_nonneg l); lia]. Qed.

(** What is left of a framed buffer after its leading zero bytes still ends
    with the whole payload. *)
Lemma strip_zeros_framed (filename_bytes data : bytes) :
  len data < 256 ^ 4 ->
  exists prefix,
    strip_zeros (framed filename_bytes data) = prefix ++ data
    /\ len prefix <= 8 + len filename_bytes.
Proof.
  intros Hd. unfold framed.
  set (header := be_bytes 4 (len filename_bytes) ++ filename_bytes
                 ++ be_bytes 4 (len data)).
  replace (be_bytes 4 (len filename_bytes) ++ filename_bytes
           ++ be_bytes 4 (len data) ++ data)
    with (header ++ data) by (unfold header; rewrite <- !app_assoc; reflexivity).
  assert (Hlen : len header = 8 + len filename_bytes).
  { unfold header. rewrite !len_app, !len_be_bytes. lia. }
  destruct (strip_zeros header) as [|b t] eqn:E.
  - (* a header of zero bytes announces an empty payload *)
    assert (Hnum : from_bytes header = 0)
      by (rewrite <- from_bytes_strip_zeros, E; reflexivity).
    unfold header in Hnum.
    rewrite app_assoc, from_bytes_app, from_bytes_be_bytes, len_be_bytes in Hnum
      by (pose proof (len_nonneg data); change (Z.of_nat 4) with 4; lia).
    pose proof (from_bytes_range (be_bytes 4 (len filename_bytes) ++ filename_bytes)).
    pose proof (len_nonneg data).
    assert (Hd0 : len data = 0) by nia.
    apply len_zero_nil in Hd0. subst data.
    exists []. rewrite app_nil_r, E. split; [reflexivity|].
    pose proof (len_nonneg filename_bytes). change (len (@nil byte)) with 0. lia.
  - exists (b :: t). split.
    + rewrite strip_zeros_app by (rewrite E; discriminate). rewrite E. reflexivity.
    + rewrite <- E, <- Hlen. apply strip_zeros_len.
Qed.

(** X2. Whatever frames into a buffer, decoding what encode wrote falls
    back: it returns, under the name ["decoded_file"], the framed buffer
    without its leading zero bytes. These bytes end with the whole payload;
    before it come at most [8 + len(filename_bytes)] bytes left of the
    header. *)
Theorem prime_round_trip_keeps_payload (data : bytes) (filename : str)
  (full_data : bytes) (Hframe : frame data filename = Ok full_data) :
  round_trip data filename = Ok (strip_zeros full_data, lit "decoded_file")
  /\ exists prefix,
       strip_zeros full_data = prefix ++ data
       /\ len prefix <= 8 + utf8_size filename.
Proof.
  split.
  - rewrite (round_trip_framed _ _ _ Hframe). unfold unframe.
    rewrite strict_unframe_no_leading_zero by apply strip_zeros_shape.
    reflexivity.
  - destruct (frame_inv _ _ _ Hframe) as (fb & Hfb & _ & Hd & ->).
    rewrite <- (encode_utf8_len _ _ Hfb). apply strip_zeros_framed. exact Hd.
Qed.

(** X2, a witness: the payload ["A"] under the name ["a"]. *)
Lemma prime_round_trip_keeps_payload_witness :
  round_trip ["A"%byte] (lit "a")
  = Ok (strip_zeros [x00; x00; x00; x01; "a"; x00; x00; x00; x01; "A"]%byte,
        lit "decoded_file")
  /\ exists prefix,
       strip_zeros [x00; x00; x00; x01; "a"; x00; x00; x00; x01; "A"]%byte
       = prefix ++ ["A"%byte]
       /\ len prefix <= 8 + utf8_size (lit "a").
Proof.
  apply (prime_round_trip_keeps_payload ["A"%byte] (lit "a")).
  vm_compute. reflexivity.
Defined.

Lemma be_bytes_4_small (n : Z) :
  0 <= n < 256 -> be_bytes 4 (256 + n) = [x00; x00; x01; byte_of_Z n].
Proof.
  intros Hn. cbn [be_bytes app].
  replace ((256 + n) mod 256) with n by zdm.
  replace ((256 + n) / 256 mod 256) with 1 by zdm.
  replace ((256 + n) / 256 / 256 mod 256) with 0 by zdm.
  replace ((256 + n) / 256 / 256 / 256 mod 256) with 0 by zdm.
  reflexivity.
Qed.

Lemma encode_utf8_ascii_cons (c : Z) (s : str) (bs : bytes) :
  0 <= c < 128 -> encode_utf8 s = Ok bs -> encode_utf8 (c :: s) = Ok (byte_of_Z c :: bs).
Proof.
  intros Hc Hs. cbn [encode_utf8].
  rewrite utf8_encode_char_1 by (change 0x80 with 128; lia).
  rewrite Hs. reflexivity.
Qed.

(** X3. Encoding is not injective. For every payload of fewer than 128
    bytes, the payload under a certain 256-byte filename and a longer
    payload under the one-character filename ["\0"] frame into buffers that
    differ by one leading zero byte only, and so get the same prime string. *)
Theorem prime_encode_collision (data : bytes) (Hshort : len data < 128) :
  0 :: 0 :: 1 :: len data :: repeat 97 252 <> [0]
  /\ exists prime_str,
       bytes_to_prime_string data (0 :: 0 :: 1 :: len data :: repeat 97 252)
       = Ok prime_str
       /\ bytes_to_prime_string
            (repeat "a"%byte 252 ++ be_bytes 4 (len data) ++ data) [0]
          = Ok prime_str.
Proof.
  split; [discriminate|].
  pose proof (len_nonneg data) as H0.
  set (name_bytes := x00 :: x00 :: x01 :: byte_of_Z (len data) :: repeat "a"%byte 252).
  assert (Hname : encode_utf8 (0 :: 0 :: 1 :: len data :: repeat 97 252) = Ok name_bytes).
  { unfold name_bytes.
    apply (encode_utf8_ascii_cons 0); [lia|].
    apply (encode_utf8_ascii_cons 0); [lia|].
    apply (encode_utf8_ascii_cons 1); [lia|].
    apply (encode_utf8_ascii_cons (len data)); [lia|].
    apply encode_utf8_repeat_a. }
  assert (Hnlen : len name_bytes = 256).
  { unfold name_bytes. rewrite !len_cons. unfold len. rewrite repeat_length. reflexivity. }
  assert (F1 : frame data (0 :: 0 :: 1 :: len data :: repeat 97 252)
               = Ok (framed name_bytes data)).
  { apply frame_ok; [exact Hname | rewrite Hnlen; reflexivity |].
    change (256 ^ 4) with 4294967296. lia. }
  set (long := repeat "a"%byte 252 ++ be_bytes 4 (len data) ++ data).
  assert (Hllen : len long = 256 + len data).
  { unfold long. rewrite !len_app, len_be_bytes. unfold len at 1.
    rewrite repeat_length. lia. }
  assert (F2 : frame long [0] = Ok (framed [x00] long)).
  { apply frame_ok; [reflexivity | reflexivity |].
    rewrite Hllen. change (256 ^ 4) with 4294967296. lia. }
  assert (Hcons : framed [x00] long = x00 :: framed name_bytes data).
  { unfold framed. rewrite Hllen, Hnlen, be_bytes_4_small by lia.
    unfold long, name_bytes. reflexivity. }
  exists (decimal (from_bytes (framed name_bytes data))). split.
  - apply bytes_to_prime_string_framed. exact F1.
  - rewrite (bytes_to_prime_string_framed _ _ _ F2), Hcons, from_bytes_cons.
    change (Z_of_byte x00) with 0. do 2 f_equal; lia.
Qed.

(** X3, a witness: the empty payload. *)
Lemma prime_encode_collision_witness :
  0 :: 0 :: 1 :: len (@nil byte) :: repeat 97 252 <> [0]
  /\ exists prime_str,
       bytes_to_prime_string [] (0 :: 0 :: 1 :: len (@nil byte) :: repeat 97 252)
       = Ok prime_str
       /\ bytes_to_prime_string
            (repeat "a"%byte 252 ++ be_bytes 4 (len (@nil byte)) ++ []) [0]
          = Ok prime_str.
Proof.
  apply (prime_encode_collision []). vm_compute. reflexivity.
Defined.

Lemma dec_digits_leading (fuel : nat) :
  forall (n : Z) (acc : str),
    0 < n < 2 ^ Z.of_nat (S fuel) ->
    exists c rest, dec_digits (S fuel) n acc = c :: rest /\ 49 <= c <= 57.
Proof.
  induction fuel as [|fuel IH]; intros n acc Hn.
  - change (2 ^ Z.of_nat 1) with 2 in Hn. cbn [dec_digits].
    destruct (Z.ltb_spec n 10); [|lia].
    eexists _, _. split; [reflexivity|]. unfold digit_char.
    rewrite Z.mod_small by lia. lia.
  - cbn [dec_digits]. destruct (Z.ltb_spec n 10).
    + eexists _, _. split; [reflexivity|]. unfold digit_char.
      rewrite Z.mod_small by lia. lia.
    + apply IH. rewrite Nat2Z.inj_succ, Z.pow_succ_r in Hn by lia.
      split; [apply Z.div_str_pos; lia | apply Z.div_lt_upper_bound; lia].
Qed.

(** X4. A prime string that encode returns holds decimal digits only, is
    ["0"] or starts with a digit other than [0], and [int] reads it back as
    the big-endian integer of the framed buffer. *)
Theorem prime_string_is_canonical_decimal (data : bytes) (filename : str)
  (prime_str : str) (Hencode : bytes_to_prime_string data filename = Ok prime_str) :
  Forall digit prime_str
  /\ (prime_str = lit "0" \/ exists c rest, prime_str = c :: rest /\ 49 <= c <= 57)
  /\ exists full_data,
       frame data filename = Ok full_data
       /\ int_of_str int_max_str_digits 10 prime_str = Ok (from_bytes full_data).
Proof.
  destruct (frame data filename) as [full_data|e] eqn:Hframe.
  2:{ rewrite (bytes_to_prime_string_raises _ _ _ Hframe) in Hencode. discriminate. }
  rewrite (bytes_to_prime_string_framed _ _ _ Hframe) in Hencode.
  apply Ok_eq in Hencode. subst prime_str.
  pose proof (from_bytes_range full_data) as [Hn _].
  split; [|split].
  - apply dec_digits_digits; [exact Hn | constructor].
  - destruct (Z.eq_dec (from_bytes full_data) 0) as [E|E].
    + left. rewrite E. reflexivity.
    + right. apply dec_digits_leading. split; [lia|]. apply fuel_enough. exact Hn.
  - exists full_data. split; [reflexivity|]. apply int_of_decimal. exact Hn.
Qed.

(** X4, a witness: the payload ["A"] under the name ["a"]. *)
Lemma prime_string_is_canonical_decimal_witness :
  Forall digit (lit "388127604605249")
  /\ (lit "388127604605249" = lit "0"
      \/ exists c rest, lit "388127604605249" = c :: rest /\ 49 <= c <= 57)
  /\ exists full_data,
       frame ["A"%byte] (lit "a") = Ok full_data
       /\ int_of_str int_max_str_digits 10 (lit "388127604605249")
          = Ok (from_bytes full_data).
Proof.
  apply (prime_string_is_canonical_decimal ["A"%byte] (lit "a")).
  vm_compute. reflexivity.
Defined.

(** X5. Lines 85-88 rebuild, from the integer of any buffer, the buffer
    without its leading zero bytes: the same number, and no buffer of that
    number is shorter. *)
Theorem minimal_bytes_is_shortest (l : bytes) :
  minimal_bytes (from_bytes l) = Ok (strip_zeros l)
  /\ from_bytes (strip_zeros l) = from_bytes l
  /\ (strip_zeros l = [] \/ leading_byte (strip_zeros l) <> x00)
  /\ forall l', from_bytes l' = from_bytes l -> len (strip_zeros l) <= len l'.
Proof.
  split; [apply minimal_bytes_from_bytes|].
  split; [apply from_bytes_strip_zeros|]. split.
  - destruct (strip_zeros_shape l) as [E | (b & t & E & Hb)]; [left; exact E|].
    right. rewrite E. exact Hb.
  - intros l' Hsame.
    pose proof (minimal_bytes_from_bytes l') as E'.
    rewrite Hsame, minimal_bytes_from_bytes in E'. apply Ok_eq in E'.
    rewrite E'. apply strip_zeros_len.
Qed.

(** The fields of a framed buffer that more bytes follow. *)
Section Trailing.

Variables (filename_bytes data extra : bytes).
Hypothesis Hname : len filename_bytes < 256 ^ 4.
Hypothesis Hdata : len data < 256 ^ 4.

Lemma trailing_filename_length :
  filename_length (framed filename_bytes data ++ extra) = len filename_bytes.
Proof.
  unfold filename_length, framed. rewrite <- app_assoc.
  rewrite slice_prefix_eq by (rewrite len_be_bytes; reflexivity).
  apply from_bytes_be_bytes.
  pose proof (len_nonneg filename_bytes). change (Z.of_nat 4) with 4. lia.
Qed.

Lemma trailing_filename_slice :
  filename_slice (framed filename_bytes data ++ extra) = filename_bytes.
Proof.
  unfold filename_slice. rewrite trailing_filename_length. unfold framed.
  rewrite <- !app_assoc.
  apply slice_middle; rewrite len_be_bytes; reflexivity.
Qed.

Lemma trailing_payload_length :
  payload_length (framed filename_bytes data ++ extra) = len data.
Proof.
  unfold payload_length. rewrite trailing_filename_length. unfold framed.
  rewrite <- !app_assoc. rewrite app_assoc.
  rewrite (slice_middle (be_bytes 4 (len filename_bytes) ++ filename_bytes)
             (be_bytes 4 (len data)) (data ++ extra)).
  - apply from_bytes_be_bytes.
    pose proof (len_nonneg data). change (Z.of_nat 4) with 4. lia.
  - rewrite len_app, len_be_bytes. lia.
  - rewrite len_app, !len_be_bytes. lia.
Qed.

Lemma trailing_payload :
  slice (framed filename_bytes data ++ extra)
    (8 + len filename_bytes) (8 + len filename_bytes + len data) = data.
Proof.
  unfold framed. rewrite <- !app_assoc.
  rewrite (app_assoc (be_bytes 4 (len filename_bytes))).
  rewrite (app_assoc (be_bytes 4 (len filename_bytes) ++ filename_bytes)).
  apply slice_middle; rewrite !len_app, !len_be_bytes; lia.
Qed.

Lemma trailing_len :
  len (framed filename_bytes data ++ extra)
  = 8 + len filename_bytes + len data + len extra.
Proof. rewrite len_app, framed_len. reflexivity. Qed.

End Trailing.

(** X6. The strict reading stops at the end of the payload: the bytes that
    follow a framed buffer are ignored. For a filename of at most 500
    bytes, unframing the framed buffer followed by any bytes returns the
    payload and the filename, as for the framed buffer alone. *)
Theorem unframe_ignores_trailing_bytes (data : bytes) (filename : str)
  (full_data extra : bytes)
  (Hframe : frame data filename = Ok full_data)
  (Hname : utf8_size filename <= 500) :
  unframe (full_data ++ extra) = Ok (data, filename).
Proof.
  destruct (frame_inv _ _ _ Hframe) as (fb & Hfb & Hf & Hd & ->).
  rewrite <- (encode_utf8_len _ _ Hfb) in Hname.
  pose proof (len_nonneg fb). pose proof (len_nonneg data).
  pose proof (len_nonneg extra).
  unfold unframe.
  destruct (strict_unframe_spec (framed fb data ++ extra))
    as [[_ Hfail] | (fn & E & Hfn & _)].
  - exfalso. unfold validation_fails in Hfail.
    rewrite trailing_filename_slice, trailing_payload_length,
      trailing_filename_length, trailing_len in Hfail by assumption.
    destruct Hfail as [Hx | [[e Hx] | [Hx | Hx]]]; try lia.
    rewrite (decode_encode_utf8 _ _ Hfb) in Hx. discriminate.
  - rewrite trailing_filename_slice, (decode_encode_utf8 _ _ Hfb) in Hfn by assumption.
    rewrite trailing_payload_length, trailing_filename_length, trailing_payload in E
      by assumption.
    rewrite E. cbn [bind]. apply Ok_eq in Hfn. subst fn. reflexivity.
Qed.

(** X6, a witness: three bytes after the framed ["AB"] of ["a.txt"]. *)
Lemma unframe_ignores_trailing_bytes_witness :
  unframe ([x00; x00; x00; x05; "a"; "."; "t"; "x"; "t";
            x00; x00; x00; x02; "A"; "B"]%byte ++ ["x"; "y"; "z"]%byte)
  = Ok (["A"; "B"]%byte, lit "a.txt").
Proof.
  apply (unframe_ignores_trailing_bytes ["A"; "B"]%byte (lit "a.txt")).
  - vm_compute. reflexivity.
  - vm_compute. discriminate.
Defined.

Section PrimeEndpoints.

Variable sha256_hexdigest : bytes -> str.

(** X7. [decode_from_prime], for every JSON object of a request. When the
    object has no ["prime_string"] or a false one ([null], [false], [0],
    [0.0], an empty string, list or object) the answer is "Missing
    prime_string". Otherwise the value goes to [int]: a string is read in
    base 10, [true] counts as 1, a float is cut towards zero. When [int]
    gives an [n >= 0] the answer is the shortest bytes of [n], their hash
    and the filename ["decoded_file"], never a filename read from a header;
    when [int] refuses the value (a text that is no numeral, a list, an
    object, an infinity, a NaN) or gives a negative number, the answer is
    "Could not decode prime", the "Invalid prime string" of line 127
    included. So [true] decodes to the byte 1 and the float 3.5 to the
    byte 3. *)
Theorem decode_from_prime_outcomes (prime_data : list (str * value)) :
  decode_from_prime sha256_hexdigest prime_data
  = match dict_get prime_data (lit "prime_string") with
    | None => Raise (HTTPException 400 "Missing prime_string")
    | Some prime_str =>
        if truthy prime_str then
          match int_of int_max_str_digits prime_str with
          | Ok n =>
              if n <? 0 then Raise (HTTPException 400 "Could not decode prime: ")
              else Ok {| file_body := shortest_bytes n;
                         file_decoded_hash := sha256_hexdigest (shortest_bytes n);
                         file_decoded_filename := lit "decoded_file" |}
          | Raise _ => Raise (HTTPException 400 "Could not decode prime: ")
          end
        else Raise (HTTPException 400 "Missing prime_string")
    end
  /\ decode_from_prime sha256_hexdigest [(lit "prime_string", VBool true)]
     = Ok {| file_body := [x01];
             file_decoded_hash := sha256_hexdigest [x01];
             file_decoded_filename := lit "decoded_file" |}
  /\ decode_from_prime sha256_hexdigest [(lit "prime_string", VFloat (Finite 7 (-1)))]
     = Ok {| file_body := [x03];
             file_decoded_hash := sha256_hexdigest [x03];
             file_decoded_filename := lit "decoded_file" |}.
Proof.
  split; [|split; reflexivity].
  unfold decode_from_prime, calculate_hash.
  destruct (dict_get prime_data (lit "prime_string")) as [prime_str|]; [|reflexivity].
  destruct (truthy prime_str); [|reflexivity]. cbn [negb].
  rewrite prime_string_to_bytes_cases.
  destruct (int_of int_max_str_digits prime_str) as [n|e];
    cbn [bind try_except is_Exception]; [|reflexivity].
  destruct (n <? 0); reflexivity.
Qed.

(** X8. [encode_to_prime] takes a missing and an empty filename for
    ["unknown"]. On a non-empty upload of fewer than [2 ^ 32] bytes under
    such a name it succeeds: the prime string is the decimal text of the
    framed buffer's integer, [original_size] the length of the upload and
    [digit_count] the length of the prime string. *)
Theorem encode_to_prime_unnamed (b : byte) (content : bytes)
  (Hsize : len (b :: content) < 2 ^ 32) :
  encode_to_prime sha256_hexdigest (b :: content) None
  = encode_to_prime sha256_hexdigest (b :: content) (Some (lit "unknown"))
  /\ encode_to_prime sha256_hexdigest (b :: content) (Some [])
     = encode_to_prime sha256_hexdigest (b :: content) (Some (lit "unknown"))
  /\ encode_to_prime sha256_hexdigest (b :: content) None
     = Ok {| prime_string :=
               decimal (from_bytes (framed [x75; x6e; x6b; x6e; x6f; x77; x6e]
                                      (b :: content)));
             original_hash := sha256_hexdigest (b :: content);
             original_size := len (b :: content);
             original_filename := lit "unknown";
             digit_count :=
               len (decimal (from_bytes (framed [x75; x6e; x6b; x6e; x6f; x77; x6e]
                                           (b :: content)))) |}.
Proof.
  split; [reflexivity|]. split; [reflexivity|].
  unfold encode_to_prime, calculate_hash. cbn [is_empty or_default].
  assert (Hframe : frame (b :: content) (lit "unknown")
                   = Ok (framed [x75; x6e; x6b; x6e; x6f; x77; x6e] (b :: content))).
  { apply frame_ok; [reflexivity | reflexivity |].
    change (256 ^ 4) with (2 ^ 32). exact Hsize. }
  change (or_default None (lit "unknown")) with (lit "unknown").
  rewrite (bytes_to_prime_string_framed _ _ _ Hframe). reflexivity.
Qed.

End PrimeEndpoints.

(** X8, a witness: the one-byte upload ["A"]. *)
Lemma encode_to_prime_unnamed_witness :
  encode_to_prime (fun _ => []) ["A"%byte] None
  = encode_to_prime (fun _ => []) ["A"%byte] (Some (lit "unknown"))
  /\ encode_to_prime (fun _ => []) ["A"%byte] (Some [])
     = encode_to_prime (fun _ => []) ["A"%byte] (Some (lit "unknown"))
  /\ encode_to_prime (fun _ => []) ["A"%byte] None
     = Ok {| prime_string :=
               decimal (from_bytes (framed [x75; x6e; x6b; x6e; x6f; x77; x6e]
                                      ["A"%byte]));
             original_hash := [];
             original_size := len ["A"%byte];
             original_filename := lit "unknown";
             digit_count :=
               len (decimal (from_bytes (framed [x75; x6e; x6b; x6e; x6f; x77; x6e]
                                           ["A"%byte]))) |}.
Proof.
  apply (encode_to_prime_unnamed (fun _ => []) "A"%byte []).
  vm_compute. reflexivity.
Defined.

End PrimeCodec.

(** * More on the MIDI note codec *)

Module MidiTracks.
Import Py Main Spec PyFacts Midi.

Lemma byte_of_events_of (i : nat) (b : byte) (rest : list Message) :
  bytes_of_events (events_of i b ++ rest) = decoded_of b :: bytes_of_events rest.
Proof.
  unfold events_of. cbn [app bytes_of_events]. f_equal.
  destruct b; vm_compute; reflexivity.
Qed.

Lemma bytes_of_events_from (content : bytes) (i : nat) :
  bytes_of_events (events_from i content) = map decoded_of content.
Proof.
  revert i. induction content as [|b rest IH]; intros i; cbn [events_from map].
  - reflexivity.
  - rewrite byte_of_events_of, IH. reflexivity.
Qed.

Lemma decode_encode_loop (content : bytes) :
  decode_loop (encode_loop 0 content []) [] = map decoded_of content.
Proof.
  change 0 with (Z.of_nat 0). rewrite encode_loop_events, decode_loop_events.
  cbn [app]. apply bytes_of_events_from.
Qed.

Lemma recovered_decoded_of (b : byte) : recovered b = Byte.eqb (decoded_of b) b.
Proof. destruct b; vm_compute; reflexivity. Qed.

Lemma map_fixed {A : Type} (f : A -> A) (l : list A) :
  map f l = l <-> Forall (fun x => f x = x) l.
Proof.
  induction l as [|x l IH]; cbn [map].
  - split; [constructor | reflexivity].
  - split.
    + intros H. injection H as Hx Hl. constructor; [exact Hx | apply IH; exact Hl].
    + intros H. inversion H as [|? ? Hx Hl]; subst. rewrite Hx. f_equal.
      apply IH. exact Hl.
Qed.

(** X9. Decoding the track that encode builds for a payload gives as many
    bytes as the payload has, the byte at each place being
    [(b mod 64 + min(192, 4 * (b / 4))) mod 256] for the byte [b] encoded
    there. The payload comes back exactly when each of its bytes is one the
    codec recovers ([b mod 64 < 4] or [b >= 192]). *)
Theorem midi_round_trip_bytewise (content : bytes) :
  decode_loop (encode_loop 0 content []) [] = map decoded_of content
  /\ len (decode_loop (encode_loop 0 content []) []) = len content
  /\ (decode_loop (encode_loop 0 content []) [] = content
      <-> forallb (fun b => (Z_of_byte b mod 64 <? 4) || (192 <=? Z_of_byte b)) content
          = true).
Proof.
  rewrite decode_encode_loop. split; [reflexivity|]. split.
  - unfold len. rewrite length_map. reflexivity.
  - etransitivity; [apply map_fixed|]. rewrite forallb_forall, Forall_forall.
    split; intros H b Hb; specialize (H b Hb).
    + assert (R : recovered b = true)
        by (rewrite recovered_decoded_of, H; apply Byte.byte_dec_lb; reflexivity).
      revert R. clear. destruct b; vm_compute; intros R; exact R.
    + assert (R : recovered b = true)
        by (revert H; clear; destruct b; vm_compute; intros H; exact H).
      rewrite recovered_decoded_of in R. apply Byte.byte_dec_bl. exact R.
Qed.

(** X10. The decoder reaches every byte: for every byte [b], the note-on of
    note [48 + (b - min(192, 4 * (b / 4)))] and velocity
    [40 + min(48, b / 4)], both within [0 .. 127], decodes to [b]. *)
Theorem midi_decoder_reaches_every_byte (b : byte) :
  let z := Z_of_byte b in
  let note := 48 + (z - Z.min 192 (4 * (z / 4))) in
  let velocity := 40 + Z.min 48 (z / 4) in
  0 <= note <= 127 /\ 0 <= velocity <= 127
  /\ decode_message (NoteOn 0 note velocity 0) [] = [b].
Proof.
  cbv zeta. pose proof (Z_of_byte_range b) as R.
  split; [zdm|]. split; [zdm|].
  destruct b; vm_compute; reflexivity.
Qed.

Lemma decode_loop_app (t1 t2 : MidiTrack) (acc : bytes) :
  decode_loop (t1 ++ t2) acc = decode_loop t2 (decode_loop t1 acc).
Proof.
  revert acc. induction t1 as [|msg t1 IH]; intros acc; cbn [app decode_loop].
  - reflexivity.
  - apply IH.
Qed.

Lemma bytes_of_events_filter (track : MidiTrack) :
  bytes_of_events track = bytes_of_events (filter is_note_on track)
  /\ length (bytes_of_events track) = length (filter is_note_on track).
Proof.
  induction track as [|msg track [IH1 IH2]]; [split; reflexivity|].
  destruct msg; cbn [filter is_note_on bytes_of_events length];
    try (split; assumption).
  split; [f_equal; exact IH1 | f_equal; exact IH2].
Qed.

(** X11. [decode_from_midi] reads the note-on messages only: decoding a
    track gives one byte for each note-on message, in their order, and the
    same bytes as decoding the track without its other messages; decoding
    two tracks laid end to end gives the bytes of the first and then those
    of the second. *)
Theorem midi_decode_reads_note_on_only (track more : MidiTrack) :
  decode_loop track [] = decode_loop (filter is_note_on track) []
  /\ len (decode_loop track []) = len (filter is_note_on track)
  /\ decode_loop (track ++ more) [] = decode_loop track [] ++ decode_loop more [].
Proof.
  destruct (bytes_of_events_filter track) as [E1 E2].
  split; [|split].
  - rewrite !decode_loop_events. exact E1.
  - rewrite decode_loop_events. unfold len. cbn [app]. rewrite E2. reflexivity.
  - rewrite decode_loop_app, !decode_loop_events. reflexivity.
Qed.

Lemma accompany_in_range (i : Z) (msg : Message) (st : Accompaniment) :
  in_range msg -> state_in_range st -> state_in_range (accompany i msg st).
Proof.
  intros Hmsg (Hb & Hc & Hd & Ht). unfold state_in_range.
  assert (Htime : 0 <= msg_time msg) by (destruct msg; cbn in *; lia).
  destruct msg as [ch note velocity t| | |]; cbn [accompany bass_track chord_track
    drum_track time]; try (repeat split; assumption).
  cbn [in_range] in Hmsg.
  assert (Hv2 : 0 <= velocity / 2 <= 127) by zdm.
  assert (Hv3 : 0 <= velocity / 3 <= 127) by zdm.
  assert (Hbn : 0 <= note mod 12 + 36 <= 127) by zdm.
  assert (H4 : 0 <= (note + 4) mod 128 <= 127) by zdm.
  assert (H7 : 0 <= (note + 7) mod 128 <= 127) by zdm.
  repeat split.
  - apply Forall_app. split; [exact Hb|].
    repeat constructor; cbn [in_range]; lia.
  - apply Forall_app. split; [exact Hc|]. cbn [map app].
    repeat constructor; cbn [in_range]; lia.
  - destruct (i mod 4 =? 0), (i mod 4 =? 2);
      repeat (apply Forall_app; split); try exact Hd;
      repeat constructor; cbn [in_range]; lia.
  - exact Htime.
Qed.

Lemma accompany_loop_in_range (data_track : MidiTrack) :
  forall (i : Z) (st : Accompaniment),
    Forall in_range data_track -> state_in_range st ->
    state_in_range (accompany_loop i data_track st).
Proof.
  induction data_track as [|msg rest IH]; intros i st Htrack Hst; cbn [accompany_loop].
  - exact Hst.
  - inversion Htrack as [|? ? Hmsg Hrest]; subst.
    apply IH; [exact Hrest|]. apply accompany_in_range; assumption.
Qed.

Lemma add_musical_tracks_skipn_range (mid : MidiFile) (data_track : MidiTrack) :
  Forall in_range data_track ->
  Forall (Forall in_range) (skipn (length mid) (add_musical_tracks mid data_track)).
Proof.
  intros Hdata. unfold add_musical_tracks.
  set (st := accompany_loop 0 data_track _).
  assert (Hst : state_in_range st).
  { apply accompany_loop_in_range; [exact Hdata|].
    unfold state_in_range. cbn [bass_track chord_track drum_track time].
    repeat split; repeat constructor; cbn [in_range]; lia. }
  destruct Hst as (Hb & Hc & Hd & _).
  rewrite skipn_app, skipn_all, Nat.sub_diag. cbn [skipn app].
  repeat constructor; assumption.
Qed.

(** X12. [add_musical_tracks] leaves the tracks of the file as they are and
    adds three after them. When the messages of the data track pass the
    range checks of [mido] (channel within 0..15, note and velocity within
    0..127, time not negative), so does every message of the three tracks:
    building them never raises. *)
Theorem add_musical_tracks_in_range (mid : MidiFile) (data_track : MidiTrack)
  (Hdata : Forall in_range data_track) :
  firstn (length mid) (add_musical_tracks mid data_track) = mid
  /\ length (add_musical_tracks mid data_track) = (length mid + 3)%nat
  /\ Forall (Forall in_range) (skipn (length mid) (add_musical_tracks mid data_track)).
Proof.
  split; [|split].
  - unfold add_musical_tracks.
    rewrite firstn_app, Nat.sub_diag, firstn_all. cbn [firstn]. apply app_nil_r.
  - unfold add_musical_tracks. rewrite length_app. reflexivity.
  - apply add_musical_tracks_skipn_range. exact Hdata.
Qed.

(** X12, a witness: the track of the one byte [0xFF]. *)
Lemma add_musical_tracks_in_range_witness :
  firstn (length [[NoteOn 0 111 103 0; NoteOff 0 111 103 120]])
    (add_musical_tracks [[NoteOn 0 111 103 0; NoteOff 0 111 103 120]]
       [NoteOn 0 111 103 0; NoteOff 0 111 103 120])
  = [[NoteOn 0 111 103 0; NoteOff 0 111 103 120]]
  /\ length (add_musical_tracks [[NoteOn 0 111 103 0; NoteOff 0 111 103 120]]
               [NoteOn 0 111 103 0; NoteOff 0 111 103 120])
     = (length [[NoteOn 0 111 103 0; NoteOff 0 111 103 120]] + 3)%nat
  /\ Forall (Forall in_range)
       (skipn (length [[NoteOn 0 111 103 0; NoteOff 0 111 103 120]])
          (add_musical_tracks [[NoteOn 0 111 103 0; NoteOff 0 111 103 120]]
             [NoteOn 0 111 103 0; NoteOff 0 111 103 120])).
Proof.
  apply (add_musical_tracks_in_range [[NoteOn 0 111 103 0; NoteOff 0 111 103 120]]
           [NoteOn 0 111 103 0; NoteOff 0 111 103 120]).
  repeat constructor; cbn [in_range]; lia.
Defined.

Lemma even_index (i : nat) :
  Z.of_nat (2 * i) mod 4 = if Nat.even i then 0 else 2.
Proof.
  destruct (Nat.Even_or_Odd i) as [[k ->]|[k ->]].
  - rewrite Nat.even_mul. cbn [Nat.even orb]. zdm.
  - rewrite Nat.add_1_r, Nat.even_succ, Nat.odd_mul. cbn [Nat.odd Nat.even negb andb orb].
    zdm.
Qed.

Lemma note_of_byte (b : byte) : 48 <= note_of (Z_of_byte b) <= 111.
Proof. pose proof (Z_of_byte_range b). unfold note_of. zdm. Qed.

(** The loop of [add_musical_tracks] over the track of a payload, byte by
    byte. *)
Lemma accompany_loop_per_byte (content : bytes) :
  forall (i : nat) (st : Accompaniment),
    time st = delta_time i ->
    let st' := accompany_loop (Z.of_nat (2 * i)) (events_from i content) st in
    bass_track st' = bass_track st ++ per_byte bass_of i content
    /\ chord_track st' = chord_track st ++ per_byte chord_of i content
    /\ drum_track st' = drum_track st ++ per_byte drum_of i content.
Proof.
  induction content as [|b rest IH]; intros i st Htime; cbv zeta.
  - cbn [events_from accompany_loop per_byte]. rewrite !app_nil_r. repeat split.
  - cbn [events_from events_of app accompany_loop per_byte].
    replace (Z.of_nat (2 * i) + 1 + 1) with (Z.of_nat (2 * S i)) by lia.
    set (st2 := accompany _ (NoteOff _ _ _ _) (accompany _ _ st)).
    assert (H2 : time st2 = delta_time (S i)) by reflexivity.
    destruct (IH (S i) st2 H2) as (Eb & Ec & Ed). cbv zeta in Eb, Ec, Ed.
    rewrite Eb, Ec, Ed. clear Eb Ec Ed IH.
    pose proof (note_of_byte b) as Hn.
    subst st2. cbn [accompany bass_track chord_track drum_track time map app].
    rewrite Htime, even_index.
    rewrite !(Z.mod_small (note_of (Z_of_byte b) + _) 128) by lia.
    rewrite <- !app_assoc.
    split; [reflexivity|]. split; [reflexivity|].
    change (drum_of i b)
      with (if Nat.even i
            then [NoteOn 9 36 100 (delta_time i); NoteOff 9 36 100 100]
            else [NoteOn 9 38 80 (delta_time i); NoteOff 9 38 80 100]).
    destruct (Nat.even i); cbn [Z.eqb Pos.eqb]; rewrite <- ?app_assoc; reflexivity.
Qed.

Lemma accompany_loop_payload (content : bytes) (st : Accompaniment) :
  time st = 0 ->
  bass_track (accompany_loop 0 (events_from 0 content) st)
  = bass_track st ++ per_byte bass_of 0 content
  /\ chord_track (accompany_loop 0 (events_from 0 content) st)
     = chord_track st ++ per_byte chord_of 0 content
  /\ drum_track (accompany_loop 0 (events_from 0 content) st)
     = drum_track st ++ per_byte drum_of 0 content.
Proof. intros Htime. exact (accompany_loop_per_byte content 0 st Htime). Qed.

(** X13. In musical mode the three tracks added to the file follow the
    payload byte by byte. After their program changes, the bass track holds
    for each byte one note [note mod 12 + 36] at half the byte's velocity,
    and the chord track the triad [note, note + 4, note + 7] at a third of
    it (the [% 128] of line 158 never wraps, the notes of the data track
    being at most 111); the drum track holds a kick (36) for the bytes at
    even indices and a snare (38) for those at odd ones, so every byte has
    its drum hit. The bass and drum notes start 0 ticks after the previous
    event for the first byte and 120 ticks for the others. *)
Theorem accompaniment_follows_payload (mid : MidiFile) (content : bytes) :
  add_musical_tracks mid (encode_loop 0 content [])
  = mid ++ [ProgramChange 1 32 0 :: per_byte bass_of 0 content;
            ProgramChange 2 0 0 :: per_byte chord_of 0 content;
            per_byte drum_of 0 content].
Proof.
  assert (Htrack : encode_loop 0 content [] = events_from 0 content).
  { change 0 with (Z.of_nat 0). rewrite encode_loop_events. reflexivity. }
  rewrite Htrack. unfold add_musical_tracks. cbv zeta.
  match goal with
  | |- context [accompany_loop _ _ ?st] =>
      destruct (accompany_loop_payload content st eq_refl) as (Eb & Ec & Ed)
  end.
  rewrite Eb, Ec, Ed. reflexivity.
Qed.

Lemma per_byte_len (f : nat -> byte -> list Message) (k : Z) (content : bytes) :
  (forall i b, len (f i b) = k) ->
  forall i, len (per_byte f i content) = k * len content.
Proof.
  intros Hf. induction content as [|b rest IH]; intros i; cbn [per_byte].
  - change (len (@nil byte)) with 0. change (len (@nil Message)) with 0. lia.
  - rewrite len_app, Hf, IH, len_cons. lia.
Qed.

Lemma events_from_len (content : bytes) (i : nat) :
  len (events_from i content) = 2 * len content.
Proof.
  revert i. induction content as [|b rest IH]; intros i; cbn [events_from].
  - reflexivity.
  - rewrite len_app, IH, len_cons. change (len (events_of i b)) with 2. lia.
Qed.

(** X14. The file that lines 188-204 of [encode_to_midi] build for an
    upload of [n] bytes: in musical mode four tracks of [2n], [1 + 2n],
    [1 + 6n] and [2n] messages, in any other mode (["raw"] or a name the
    program does not know) the one track of [2n] messages; every message of
    the file passes the range checks of [mido]. The endpoint never answers
    with that file: on every upload that is not empty the response of lines
    214-219 is built with a [filename] argument that [StreamingResponse]
    does not take, and the call raises [TypeError], in either mode. *)
Theorem encode_to_midi_never_answers (sha256_hexdigest : bytes -> str)
  (b : byte) (content payload : bytes) (mode : str) :
  map len (mid_of payload mode)
  = (let n := len payload in
     if str_eqb mode (lit "musical")
     then [2 * n; 1 + 2 * n; 1 + 6 * n; 2 * n] else [2 * n])
  /\ Forall (Forall in_range) (mid_of payload mode)
  /\ encode_to_midi sha256_hexdigest (b :: content) mode = Raise TypeError
  /\ (forall r, encode_to_midi sha256_hexdigest payload mode <> Ok r).
Proof.
  cbv zeta.
  assert (Htrack : encode_loop 0 payload [] = events_from 0 payload).
  { change 0 with (Z.of_nat 0). rewrite encode_loop_events. reflexivity. }
  assert (Hrange : Forall in_range (encode_loop 0 payload []))
    by (rewrite Htrack; apply events_in_range).
  assert (Hlen : len (encode_loop 0 payload []) = 2 * len payload)
    by (rewrite Htrack; apply events_from_len).
  split; [|split; [|split; [reflexivity|]]].
  - unfold mid_of. destruct (str_eqb mode (lit "musical")).
    + unfold add_musical_tracks. cbn [app map]. rewrite Hlen.
      rewrite Htrack.
      match goal with
      | |- context [accompany_loop _ _ ?st] =>
          destruct (accompany_loop_payload payload st eq_refl) as (Eb & Ec & Ed)
      end.
      rewrite Eb, Ec, Ed.
      cbn [bass_track chord_track drum_track app]. rewrite !len_cons.
      rewrite (per_byte_len bass_of 2) by reflexivity.
      rewrite (per_byte_len chord_of 6) by reflexivity.
      rewrite (per_byte_len drum_of 2)
        by (intros i c; unfold drum_of; destruct (Nat.even i); reflexivity).
      change (len (@nil Message)) with 0.
      repeat (f_equal; try lia).
    + cbn [map]. rewrite Hlen. reflexivity.
  - unfold mid_of. destruct (str_eqb mode (lit "musical")).
    + constructor; [exact Hrange|].
      exact (add_musical_tracks_skipn_range [] _ Hrange).
    + constructor; [exact Hrange | constructor].
  - intros r. unfold encode_to_midi, StreamingResponse_with_filename.
    destruct (is_empty payload); discriminate.
Qed.

Section MidiEndToEnd.

Variable sha256_hexdigest : bytes -> str.
Variable MidiFile_read : bytes -> result MidiFile.
Variable unicode_lower : str -> str.

(** X15. From the track built for an upload to verification. Take a
    carrier that is not empty and in whose first track the reader of [mido]
    finds the note-on messages of the track that lines 193-200 build for an
    upload, whatever else it finds there (the end-of-track message that
    [mido] writes, note-off messages) and in the other tracks. Then
    [decode_from_midi] succeeds with the bytes [decoded_of b] for the bytes
    [b] of the upload and their hash. When every byte of the upload is one
    that comes back ([b mod 64 < 4] or [b >= 192]) the decoded file is the
    upload and [verify_hashes] reports that its hash and the hash of the
    upload match. *)
Theorem midi_carrier_to_verification (content carrier : bytes)
  (first : MidiTrack) (others : list MidiTrack)
  (Hcarrier : is_empty carrier = false)
  (Hread : MidiFile_read carrier = Ok (first :: others))
  (Hnotes : filter is_note_on first = filter is_note_on (encode_loop 0 content [])) :
  exists d,
    decode_from_midi sha256_hexdigest MidiFile_read carrier = Ok d
    /\ body d = map decoded_of content
    /\ decoded_hash d = sha256_hexdigest (map decoded_of content)
    /\ (forallb comes_back content = true ->
        body d = content
        /\ match_ (verify_hashes unicode_lower
                     (calculate_hash sha256_hexdigest content) (decoded_hash d))
           = true).
Proof.
  unfold decode_from_midi, calculate_hash. rewrite Hcarrier, Hread.
  cbn [bind try_except].
  assert (Hdecode : decode_loop first [] = map decoded_of content).
  { rewrite decode_loop_events. cbn [app].
    destruct (bytes_of_events_filter first) as [-> _]. rewrite Hnotes.
    destruct (bytes_of_events_filter (encode_loop 0 content [])) as [<- _].
    rewrite <- decode_encode_loop, decode_loop_events. reflexivity. }
  rewrite Hdecode.
  eexists. split; [reflexivity|]. cbn [body decoded_hash].
  split; [reflexivity|]. split; [reflexivity|].
  intros Hback.
  assert (Hsame : map decoded_of content = content).
  { apply map_fixed. rewrite forallb_forall in Hback. apply Forall_forall.
    intros c Hc. specialize (Hback c Hc). revert Hback. clear.
    unfold comes_back. destruct c; vm_compute; congruence. }
  rewrite Hsame. split; [reflexivity|].
  unfold verify_hashes. cbn [match_]. apply Verifier.str_eqb_eq. reflexivity.
Qed.

End MidiEndToEnd.

(** X15, a witness: the upload of the bytes [0x00] and [0xFF], a reader
    that finds the track built for them with an end-of-track message after
    it, and a digest and a lower case that stand for the libraries'. *)
Lemma midi_carrier_to_verification_witness :
  exists d,
    decode_from_midi (fun data => map Z_of_byte data)
      (fun _ => Ok [encode_loop 0 [x00; xff] [] ++ [Other 0]])
      ["M"%byte]
    = Ok d
    /\ body d = map decoded_of [x00; xff]
    /\ decoded_hash d = map Z_of_byte (map decoded_of [x00; xff])
    /\ (forallb comes_back [x00; xff] = true ->
        body d = [x00; xff]
        /\ match_ (verify_hashes (fun text => text)
                     (calculate_hash (fun data => map Z_of_byte data) [x00; xff])
                     (decoded_hash d))
           = true).
Proof.
  apply (midi_carrier_to_verification (fun data => map Z_of_byte data)
           (fun _ => Ok [encode_loop 0 [x00; xff] [] ++ [Other 0]])
           (fun text => text)
           [x00; xff] ["M"%byte]
           (encode_loop 0 [x00; xff] [] ++ [Other 0]) []); reflexivity.
Defined.

End MidiTracks.

(** * From upload to decoded file *)

Module RoundTrips.
Import Py Main Spec PyFacts Framing Prime.

Lemma decimal_cons (n : Z) : 0 <= n -> exists c s, decimal n = c :: s.
Proof.
  intros Hn. destruct (Z.eq_dec n 0) as [->|Hnz].
  - eexists _, _. reflexivity.
  - destruct (PrimeCodec.dec_digits_leading (Z.to_nat (Z.log2 n)) n [])
      as (c & rest & E & _); [split; [lia | apply fuel_enough; exact Hn]|].
    exists c, rest. exact E.
Qed.

Lemma or_default_cons (filename : option str) :
  exists c s, or_default filename (lit "unknown") = c :: s.
Proof. destruct filename as [[|c s]|]; eexists _, _; reflexivity. Qed.

Lemma encode_utf8_cons_len (c : Z) (s : str) (bs : bytes) :
  encode_utf8 (c :: s) = Ok bs -> 1 <= len bs.
Proof.
  intros H. rewrite (encode_utf8_len _ _ H). cbn [utf8_size fold_right].
  pose proof (utf8_width_range c). pose proof (utf8_size_nonneg s).
  fold (utf8_size s). lia.
Qed.

(** The header of a named file keeps six bytes or more without its leading
    zero bytes. *)
Lemma strip_zeros_framed_named (filename_bytes data : bytes) :
  1 <= len filename_bytes < 256 ^ 4 ->
  exists prefix,
    strip_zeros (framed filename_bytes data) = prefix ++ data
    /\ 6 <= len prefix <= 8 + len filename_bytes.
Proof.
  intros Hfb. unfold framed.
  set (h := be_bytes 4 (len filename_bytes)).
  assert (Hh : strip_zeros h <> []).
  { intros E. pose proof (from_bytes_strip_zeros h) as Hnum. rewrite E in Hnum.
    unfold h in Hnum. rewrite from_bytes_be_bytes in Hnum
      by (change (Z.of_nat 4) with 4; lia).
    change (from_bytes []) with 0 in Hnum. lia. }
  exists (strip_zeros h ++ filename_bytes ++ be_bytes 4 (len data)). split.
  - rewrite PrimeCodec.strip_zeros_app by exact Hh. rewrite <- !app_assoc. reflexivity.
  - rewrite !len_app, len_be_bytes. change (Z.of_nat 4) with 4.
    pose proof (strip_zeros_len h) as Hle. unfold h in Hle at 2.
    rewrite len_be_bytes in Hle. change (Z.of_nat 4) with 4 in Hle.
    assert (1 <= len (strip_zeros h)).
    { destruct (strip_zeros h) as [|b t]; [congruence|].
      rewrite len_cons. pose proof (len_nonneg t). lia. }
    lia.
Qed.

Section PrimeUpload.

Variable sha256_hexdigest : bytes -> str.

(** X16. From [/encode/prime] to [/decode/prime]. Whenever the endpoint
    encodes an upload, decoding the string it returned succeeds and gives,
    under the name ["decoded_file"], the upload with what is left of the
    header before it: between 6 and [8 + len(filename_bytes)] bytes. The
    decoded file is never the upload, whatever its name and content. *)
Theorem prime_upload_never_comes_back (content : bytes) (file_filename : option str)
  (r : PrimeResponse)
  (Hencode : encode_to_prime sha256_hexdigest content file_filename = Ok r) :
  exists prefix,
    decode_from_prime sha256_hexdigest [(lit "prime_string", VStr (prime_string r))]
    = Ok {| file_body := prefix ++ content;
            file_decoded_hash := sha256_hexdigest (prefix ++ content);
            file_decoded_filename := lit "decoded_file" |}
    /\ 6 <= len prefix <= 8 + utf8_size (original_filename r)
    /\ prefix ++ content <> content.
Proof.
  unfold encode_to_prime, calculate_hash in Hencode.
  destruct (is_empty content); [discriminate|]. cbv zeta in Hencode.
  apply bind_ok in Hencode. destruct Hencode as (prime_str & Hstr & Hr).
  apply Ok_eq in Hr. subst r. cbn [prime_string original_filename].
  destruct (or_default_cons file_filename) as (c & s & Hname).
  rewrite Hname in *. clear Hname.
  destruct (frame content (c :: s)) as [full_data|e] eqn:Hframe.
  2:{ rewrite (bytes_to_prime_string_raises _ _ _ Hframe) in Hstr. discriminate. }
  rewrite (bytes_to_prime_string_framed _ _ _ Hframe) in Hstr.
  apply Ok_eq in Hstr. subst prime_str.
  destruct (frame_inv _ _ _ Hframe) as (fb & Hfb & Hlen & _ & ->).
  pose proof (encode_utf8_cons_len _ _ _ Hfb) as Hone.
  destruct (strip_zeros_framed_named fb content (conj Hone Hlen))
    as (prefix & Hprefix & Hbounds).
  exists prefix. split; [|split].
  - pose proof (from_bytes_range (framed fb content)) as [Hn _].
    destruct (decimal_cons _ Hn) as (d & ds & Hd).
    unfold decode_from_prime, calculate_hash.
    change (dict_get [(lit "prime_string", VStr (decimal (from_bytes (framed fb content))))]
              (lit "prime_string"))
      with (Some (VStr (decimal (from_bytes (framed fb content))))).
    cbn [truthy]. rewrite Hd at 1. cbn [negb].
    rewrite prime_string_to_bytes_decimal. unfold unframe.
    rewrite PrimeCodec.strict_unframe_no_leading_zero by apply strip_zeros_shape.
    cbn [bind try_except]. rewrite Hprefix. reflexivity.
  - rewrite <- (encode_utf8_len _ _ Hfb). exact Hbounds.
  - intros E. apply (f_equal len) in E. rewrite len_app in E. lia.
Qed.

End PrimeUpload.

(** X16, a witness: the upload ["A"] under the name ["a"], with a digest
    that stands for the library's. *)
Lemma prime_upload_never_comes_back_witness :
  exists prefix,
    decode_from_prime (fun data => map Z_of_byte data)
      [(lit "prime_string", VStr (lit "388127604605249"))]
    = Ok {| file_body := prefix ++ ["A"%byte];
            file_decoded_hash := map Z_of_byte (prefix ++ ["A"%byte]);
            file_decoded_filename := lit "decoded_file" |}
    /\ 6 <= len prefix <= 8 + utf8_size (lit "a")
    /\ prefix ++ ["A"%byte] <> ["A"%byte].
Proof.
  apply (prime_upload_never_comes_back (fun data => map Z_of_byte data)
           ["A"%byte] (Some (lit "a"))
           {| prime_string := lit "388127604605249";
              original_hash := [65];
              original_size := 1;
              original_filename := lit "a";
              digit_count := 15 |}).
  vm_compute. reflexivity.
Defined.

(** ** The text of a data URL *)

Lemma split_cons (sep : Z) (s : str) : exists piece pieces, split sep s = piece :: pieces.
Proof.
  induction s as [|c s (piece & pieces & IH)]; cbn [split].
  - eexists _, _. reflexivity.
  - rewrite IH. destruct (c =? sep); eexists _, _; reflexivity.
Qed.

Lemma split_no_comma (s : str) : has_comma s = false -> split 44 s = [s].
Proof.
  induction s as [|c s IH]; cbn [has_comma existsb split]; [reflexivity|].
  rewrite Bool.orb_false_iff. intros [Hc Hs].
  fold (has_comma s) in Hs. rewrite (IH Hs).
  rewrite Z.eqb_sym in Hc. rewrite Hc. reflexivity.
Qed.

Lemma split_comma (prefix rest : str) :
  has_comma prefix = false ->
  split 44 (prefix ++ 44 :: rest) = prefix :: split 44 rest.
Proof.
  induction prefix as [|c prefix IH]; cbn [has_comma existsb split app].
  - intros _. destruct (split_cons 44 rest) as (piece & pieces & ->). reflexivity.
  - rewrite Bool.orb_false_iff. intros [Hc Hs].
    fold (has_comma prefix) in Hs. rewrite (IH Hs).
    rewrite Z.eqb_sym in Hc. rewrite Hc. reflexivity.
Qed.

Lemma has_comma_app (prefix rest : str) : has_comma (prefix ++ 44 :: rest) = true.
Proof.
  unfold has_comma. rewrite existsb_app. cbn [existsb].
  rewrite Z.eqb_refl, Bool.orb_true_l, Bool.orb_true_r. reflexivity.
Qed.

Lemma image_text_plain (s : str) : has_comma s = false -> image_text s = s.
Proof. intros H. unfold image_text. fold (has_comma s). rewrite H. reflexivity. Qed.

Lemma image_text_after_comma (prefix rest : str) :
  has_comma prefix = false ->
  image_text (prefix ++ 44 :: rest) = hd [] (split 44 rest).
Proof.
  intros H. unfold image_text. fold (has_comma (prefix ++ 44 :: rest)).
  rewrite has_comma_app, (split_comma _ _ H).
  destruct (split_cons 44 rest) as (piece & pieces & ->). reflexivity.
Qed.

(** X17. The image text that [decode_from_qr] hands to the base64 decoder
    (line 365): a text without a comma is taken whole; of a data URL, a
    prefix and a payload around one comma, the payload is taken; and when
    the payload is followed by another comma, what comes after that comma
    is dropped without an error. *)
Theorem image_text_of_data_url (prefix payload rest : str)
  (Hprefix : has_comma prefix = false) (Hpayload : has_comma payload = false) :
  image_text payload = payload
  /\ image_text (prefix ++ 44 :: payload) = payload
  /\ image_text (prefix ++ 44 :: payload ++ 44 :: rest) = payload.
Proof.
  split; [apply image_text_plain; exact Hpayload|]. split.
  - rewrite (image_text_after_comma _ _ Hprefix), (split_no_comma _ Hpayload).
    reflexivity.
  - rewrite (image_text_after_comma _ _ Hprefix), (split_comma _ _ Hpayload).
    reflexivity.
Qed.

(** X17, a witness: a data URL of a PNG image. *)
Lemma image_text_of_data_url_witness :
  image_text (lit "iVBORw0KGgo=") = lit "iVBORw0KGgo="
  /\ image_text (lit "data:image/png;base64" ++ 44 :: lit "iVBORw0KGgo=")
     = lit "iVBORw0KGgo="
  /\ image_text (lit "data:image/png;base64" ++ 44 :: lit "iVBORw0KGgo=" ++ 44 :: lit "x")
     = lit "iVBORw0KGgo=".
Proof.
  apply (image_text_of_data_url (lit "data:image/png;base64") (lit "iVBORw0KGgo=")
           (lit "x")); reflexivity.
Defined.

(** ** The QR record, from encode to decode *)

Lemma dict_get_record (d : QRData) :
  dict_get (record_of d) (lit "filename") = Some (VStr (qr_filename d))
  /\ dict_get (record_of d) (lit "hash") = Some (VStr (qr_hash d))
  /\ dict_get (record_of d) (lit "data") = Some (VStr (qr_data d)).
Proof. repeat split. Qed.

Section QRUpload.

Variable sha256_hexdigest : bytes -> str.
Variable b64encode : bytes -> str.
Variable b64decode : str -> result bytes.
Variable render_qr_png : QRData -> result bytes.
Variable scan_image : bytes -> result (list bytes).
Variable json_loads : str -> result value.

(** What [decode_from_qr] answers when the image text decodes to an image
    whose first symbol holds a record of three strings, the one under
    ["data"] being base64 text. *)
Lemma decode_from_qr_record (image_data : str) (image : bytes) (text : bytes)
  (more : list bytes) (d : QRData) (file_data : bytes) :
  b64decode (image_text image_data) = Ok image ->
  scan_image image = Ok (text :: more) ->
  json_loads (text_of text) = Ok (VDict (record_of d)) ->
  b64decode (qr_data d) = Ok file_data ->
  decode_from_qr sha256_hexdigest b64decode scan_image json_loads image_data
  = if latin1 (qr_hash d) && latin1 (qr_filename d)
    then Ok {| qr_body := file_data;
               qr_decoded_hash := sha256_hexdigest file_data;
               qr_original_hash := VStr (qr_hash d);
               qr_decoded_filename := VStr (qr_filename d) |}
    else Raise (HTTPException 400 "Could not decode QR: ").
Proof.
  intros Himage Hscan Hjson Hdata. unfold decode_from_qr, calculate_hash.
  rewrite Himage. cbn [bind]. rewrite Hscan. cbn [bind].
  change (match decode_utf8 text with
          | Ok t => t
          | Raise _ => decode_latin1 text
          end) with (text_of text).
  rewrite Hjson. cbn [try_except bind].
  destruct (dict_get_record d) as (Ef & Eh & Ed). rewrite Ef, Eh, Ed.
  rewrite Hdata. cbn [bind].
  unfold StreamingResponse. cbn [init_headers header_value]. unfold encode_latin1.
  destruct (latin1 (qr_hash d)); [|reflexivity].
  destruct (latin1 (qr_filename d)); reflexivity.
Qed.

(** X18. From [/encode/qr] to [/decode/qr], the libraries doing their part:
    the scanner finds in the image the symbol that was drawn, its text
    parses to the record that was written, and the base64 decoder undoes
    the encoder on the upload and on the image, whose base64 text has no
    comma. Take the image, sent as plain base64 or as a data URL behind any
    prefix without a comma. When the filename under which the upload was
    encoded (["unknown"] for an upload without a name) and the text of the
    hash are latin-1, decoding returns the upload, that filename, and twice
    the hash of the upload: recomputed, and as embedded. When the filename
    holds a character above [U+00FF], the headers of the response cannot be
    encoded and decoding answers "Could not decode QR" although the upload
    was read from the image. *)
Theorem qr_upload_round_trip (content : bytes) (file_filename : option str)
  (r : ImageResponse) (text : bytes) (more : list bytes) (prefix : str)
  (Hencode : encode_to_qr sha256_hexdigest b64encode render_qr_png content file_filename
             = Ok r)
  (Hscan : scan_image (png r) = Ok (text :: more))
  (Hjson : json_loads (text_of text)
           = Ok (VDict (record_of
                          {| qr_filename := or_default file_filename (lit "unknown");
                             qr_hash := sha256_hexdigest content;
                             qr_data := b64encode content |})))
  (Hdata : b64decode (b64encode content) = Ok content)
  (Himage : b64decode (b64encode (png r)) = Ok (png r))
  (Halphabet : has_comma (b64encode (png r)) = false)
  (Hprefix : has_comma prefix = false) :
  let filename := or_default file_filename (lit "unknown") in
  let answer :=
    if latin1 (sha256_hexdigest content) && latin1 filename
    then Ok {| qr_body := content;
               qr_decoded_hash := sha256_hexdigest content;
               qr_original_hash := VStr (sha256_hexdigest content);
               qr_decoded_filename := VStr filename |}
    else Raise (HTTPException 400 "Could not decode QR: ") in
  png_original_hash r = sha256_hexdigest content
  /\ decode_from_qr sha256_hexdigest b64decode scan_image json_loads
       (b64encode (png r)) = answer
  /\ decode_from_qr sha256_hexdigest b64decode scan_image json_loads
       (prefix ++ 44 :: b64encode (png r)) = answer.
Proof.
  cbv zeta. split; [|split].
  - unfold encode_to_qr, calculate_hash in Hencode.
    destruct (is_empty content); [discriminate|].
    destruct (500 * 1024 <? len content); [discriminate|].
    cbv zeta in Hencode.
    destruct (render_qr_png _) as [img|e]; cbn [bind try_except is_Exception] in Hencode;
      [|discriminate].
    apply Ok_eq in Hencode. subst r. reflexivity.
  - refine (decode_from_qr_record _ (png r) text more _ content _ Hscan Hjson Hdata).
    rewrite image_text_plain by exact Halphabet. exact Himage.
  - refine (decode_from_qr_record _ (png r) text more _ content _ Hscan Hjson Hdata).
    rewrite (image_text_after_comma _ _ Hprefix), (split_no_comma _ Halphabet).
    exact Himage.
Qed.

End QRUpload.

(** X18, a witness: the upload ["A"] under the name ["a"], with functions
    that stand for the libraries': a digest and a base64 alphabet of one
    character for a byte, an image of one byte, a scanner that finds one
    symbol in it and a parser that reads the record. *)
Lemma qr_upload_round_trip_witness :
  let filename := or_default (Some (lit "a")) (lit "unknown") in
  let answer :=
    if latin1 [65] && latin1 filename
    then Ok {| qr_body := ["A"%byte];
               qr_decoded_hash := [65];
               qr_original_hash := VStr [65];
               qr_decoded_filename := VStr filename |}
    else Raise (HTTPException 400 "Could not decode QR: ") in
  png_original_hash {| png := ["P"%byte]; png_original_hash := [65] |} = [65]
  /\ decode_from_qr (fun data => map Z_of_byte data)
       (fun text => Ok (map byte_of_Z text))
       (fun _ => Ok [["{"%byte]])
       (fun _ => Ok (VDict (record_of {| qr_filename := lit "a"; qr_hash := [65];
                                         qr_data := [65] |})))
       [80] = answer
  /\ decode_from_qr (fun data => map Z_of_byte data)
       (fun text => Ok (map byte_of_Z text))
       (fun _ => Ok [["{"%byte]])
       (fun _ => Ok (VDict (record_of {| qr_filename := lit "a"; qr_hash := [65];
                                         qr_data := [65] |})))
       (lit "data:image/png;base64" ++ 44 :: [80]) = answer.
Proof.
  apply (qr_upload_round_trip (fun data => map Z_of_byte data)
           (fun data => map Z_of_byte data)
           (fun text => Ok (map byte_of_Z text))
           (fun _ => Ok ["P"%byte])
           (fun _ => Ok [["{"%byte]])
           (fun _ => Ok (VDict (record_of {| qr_filename := lit "a"; qr_hash := [65];
                                             qr_data := [65] |})))
           ["A"%byte] (Some (lit "a"))
           {| png := ["P"%byte]; png_original_hash := [65] |}
           ["{"%byte] [] (lit "data:image/png;base64")); reflexivity.
Defined.

(** ** The pipeline *)

Lemma pipeline_loop_map (pipeline_steps : list PipelineStep) :
  forall results, pipeline_loop pipeline_steps results = results ++ map echoed pipeline_steps.
Proof.
  induction pipeline_steps as [|step rest IH]; intros results; cbn [pipeline_loop map].
  - rewrite app_nil_r. reflexivity.
  - rewrite IH, <- app_assoc. reflexivity.
Qed.

(** X19. [process_pipeline] runs no codec: for every list of steps and every
    upload, the empty one included, it succeeds and reports each step, in
    order, as ["completed"] with its own operation name and parameters,
    whatever the operation is called. The handler of line 443 is never
    reached and the answer does not depend on the upload. *)
Theorem process_pipeline_echoes (pipeline_steps : list PipelineStep)
  (content content' : bytes) (file_filename file_filename' : option str) :
  process_pipeline pipeline_steps content file_filename
  = Ok {| steps := map echoed pipeline_steps; status := lit "completed" |}
  /\ process_pipeline pipeline_steps content' file_filename'
     = process_pipeline pipeline_steps content file_filename.
Proof.
  unfold process_pipeline. cbv zeta. cbn [try_except].
  rewrite pipeline_loop_map. split; reflexivity.
Qed.

End RoundTrips.
